(** * cleancat.chausie: the schema evaluation engine

    A shallow embedding of [cleancat/chausie/schema.py] and the properties
    of its dependency check ([_check_for_dependency_loops]), its evaluation
    loop ([_clean]), its raw-value extraction ([getter]) and its
    serialisation ([_serialize]).

    Python dictionaries keep insertion order, and the order is observable
    (the error list of a [ValidationError] follows it), so a dictionary is an
    association list whose keys are kept unique by [dict_set]; Python sets
    ([seen], [queued_fields]) are [gset string]. *)

From stdpp Require Import base option list strings gmap.

Local Open Scope string_scope.
Local Open Scope list_scope.

(** ** Python dictionaries, in insertion order *)

Definition pydict (V : Type) : Type := list (string * V).

(** [d.get(k)] *)
Fixpoint dict_get {V} (d : pydict V) (k : string) : option V :=
  match d with
  | [] => None
  | (k', v) :: d' => if decide (k' = k) then Some v else dict_get d' k
  end.

(** [d[k] = v]: an existing key keeps its position, a new key goes last. *)
Fixpoint dict_set {V} (d : pydict V) (k : string) (v : V) : pydict V :=
  match d with
  | [] => [(k, v)]
  | (k', v') :: d' =>
      if decide (k' = k) then (k, v) :: d' else (k', v') :: dict_set d' k v
  end.

(** [d.pop(k)] (the dictionary that is left) *)
Fixpoint dict_pop {V} (d : pydict V) (k : string) : pydict V :=
  match d with
  | [] => []
  | (k', v') :: d' => if decide (k' = k) then d' else (k', v') :: dict_pop d' k
  end.

(** [k in d] *)
Definition dict_mem {V} (d : pydict V) (k : string) : bool :=
  bool_decide (is_Some (dict_get d k)).

Definition dict_keys {V} (d : pydict V) : list string := d.*1.

(** [{k: v for k, v in items}]: the items are inserted one after the other. *)
Definition dict_of_items {V} (items : list (string * V)) : pydict V :=
  foldl (λ d kv, dict_set d kv.1 kv.2) [] items.

(** [d1 == d2] on dictionaries: the same keys with the same values, in any
    order. *)
Definition dict_eq {V} (d1 d2 : pydict V) : Prop :=
  ∀ k, dict_get d1 k = dict_get d2 k.

(** [l.pop()]: the last element and the list that is left. *)
Fixpoint list_pop {A} (l : list A) : option (list A * A) :=
  match l with
  | [] => None
  | x :: l' =>
      match list_pop l' with
      | None => Some ([], x)
      | Some (init, y) => Some (x :: init, y)
      end
  end.

(** ** Values

    The values the engine looks into: [None], the [omitted] sentinel of
    [cleancat.chausie.consts], and plain data. [VFieldRef n] is the [Field]
    object bound to the class attribute [n]; an instance without an attribute
    of its own for a field shows the class attribute instead. The second
    sentinel, [empty], is the engine's own marker for `no value yet' and
    `no context'; it is the [None] of an [option] below. *)

#[warnings="-register-all"]
Inductive pyval : Type :=
| VNone
| VOmitted
| VBool (b : bool)
| VInt (z : Z)
| VStr (s : string)
| VList (l : list pyval)
| VFieldRef (name : string).

Definition is_omitted (v : pyval) : bool :=
  match v with VOmitted => true | _ => false end.

(** [context: Any = empty] *)
Definition context : Type := option pyval.

Inductive exn : Type :=
| AssertionError
| AttributeError (what : string)
| TypeError (what : string)
| ValueError (what : string).

(** What a call does: it returns or it raises. *)
Inductive res (A : Type) : Type :=
| Ok (a : A)
| Raise (e : exn).
Arguments Ok {A} a.
Arguments Raise {A} e.

(** ** The result model and the field definition

    [cleancat/chausie/field.py] declares them; [schema.py] uses
    [isinstance(v, Value)], [v.value], [v.flatten()], [ValidationError(errors=...)]
    and the attributes [accepts], [depends_on], [serialize_to],
    [serialize_func] and [run_validators] of a [Field]. *)

Definition path : Type := list string.

(** Modelled from the spec: the [Error] of field.py, `a human-readable
    message and the field path it belongs to'. *)
Record Error : Type := mkError { msg : string; field : path }.

(** Modelled from the spec: the [ValidationError] of field.py, `an aggregate
    of Errors collected from one clean invocation'. *)
Record ValidationError : Type := mkValidationError { errors : list Error }.

(** Modelled from the spec: the outcomes of field.py. A field yields a
    [Value], one [Error], or (a nested schema) the inner [ValidationError]
    re-surfaced under the outer field. *)
Inductive outcome : Type :=
| Value (value : pyval)
| Failed (e : Error)
| FailedNested (at_field : path) (inner : ValidationError).

(** [isinstance(v, Value)] *)
Definition is_Value (o : outcome) : bool :=
  match o with Value _ => true | _ => false end.

(** [v.value]; only a [Value] has the attribute. *)
Definition value_of (o : outcome) : option pyval :=
  match o with Value v => Some v | _ => None end.

(** Modelled from the spec: [flatten] of field.py; a nested
    [ValidationError] `contributes its inner Errors with an extended field
    path, not itself as one error'. *)
Definition flatten (o : outcome) : list Error :=
  match o with
  | Value _ => []
  | Failed e => [e]
  | FailedNested p inner =>
      (λ e, mkError (msg e) (p ++ field e)) <$> errors inner
  end.

(** Modelled from the spec: what a validator function of field.py hands
    back, `a replacement value or an Error'; a nested-schema validator hands
    back the inner [ValidationError]. *)
Inductive returned : Type :=
| RValue (v : pyval)
| RError (e : Error)
| RErrors (inner : ValidationError).

(** Modelled from the spec: a validator function of field.py. It is given
    the current value, the context and the outcomes recorded so far, and uses
    what it declares. *)
Definition validator : Type := pyval → context → pydict outcome → returned.

(** Modelled from the spec: the [Field] of field.py, with what schema.py
    uses of it: the four attributes it reads and the one method it calls,
    [run_validators(field, value, context, intermediate_results)]. *)
Record Field : Type := mkField {
  run_validators : path → pyval → context → pydict outcome → outcome;
  accepts : list string;
  depends_on : list string;
  serialize_to : option string;
  serialize_func : pyval → pyval;
}.

(** *** The executor of field.py *)

(** Modelled from the spec: the nullability policy of field.py. *)
Inductive Nullability : Type := Required | Optional.

(** Modelled from the spec: a function's return is recorded under the path of
    the field: a value becomes a [Value], an [Error] gets the field path in
    front of its own, a nested [ValidationError] is kept under the field. *)
Definition wrap_result (fld : path) (r : returned) : outcome :=
  match r with
  | RValue v => Value v
  | RError e => Failed (mkError (msg e) (fld ++ field e))
  | RErrors inner => FailedNested fld inner
  end.

(** Modelled from the spec: the validator chain of field.py, `invoked in
    chain order', each function given `the original raw value for the first
    function, or the prior function's output', an [Error] aborting the chain.
    [seen_by] logs the value each invoked function was handed. *)
Fixpoint run_chain (fs : list validator) (fld : path) (value : pyval)
    (ctx : context) (results : pydict outcome) (seen_by : list pyval)
    : outcome * list pyval :=
  match fs with
  | [] => (Value value, seen_by)
  | f :: fs' =>
      match f value ctx results with
      | RValue v => run_chain fs' fld v ctx results (seen_by ++ [value])
      | r => (wrap_result fld r, seen_by ++ [value])
      end
  end.

(** Modelled from the spec: [Field.run_validators] of field.py: the
    nullability policy first, the chain after it. The two messages are those
    of tests/chausie/test_field.py. The second component is the log of the
    chain. *)
Definition run_validators_logged (nullable : Nullability)
    (parents : list validator) (fld : path) (value : pyval) (ctx : context)
    (results : pydict outcome) : outcome * list pyval :=
  match value, nullable with
  | VOmitted, Required => (Failed (mkError "Value is required." fld), [])
  | VNone, Required =>
      (Failed (mkError "Value is required, and must not be None." fld), [])
  | VOmitted, Optional => (Value VOmitted, [])
  | VNone, Optional => (Value VNone, [])
  | _, _ => run_chain parents fld value ctx results []
  end.

(** Modelled from the spec: the field constructor of field.py ([simple_field]
    and [field] build their [Field] with it). *)
Definition make_field (parents : list validator) (accepts depends_on : list string)
    (nullable : Nullability) (serialize_to : option string)
    (serialize_func : pyval → pyval) : Field :=
  {| run_validators := λ fld value ctx results,
       (run_validators_logged nullable parents fld value ctx results).1;
     accepts := accepts;
     depends_on := depends_on;
     serialize_to := serialize_to;
     serialize_func := serialize_func |}.

(** Modelled from the spec: [simple_field(parents=..., nullability=...)] of
    field.py with the defaults the tests show: no alternate keys, no
    dependencies, no rename, the identity as output transform. *)
Definition simple_field (parents : list validator) (nullable : Nullability) : Field :=
  make_field parents [] [] nullable None id.

(** ** schema.py *)

(** The input record: a [dict], or any other object with its attributes. *)
Inductive input : Type :=
| DictData (d : pydict pyval)
| ObjData (attrs : pydict pyval).

(** [getattr(obj, name, default)] *)
Definition getattr_or (attrs : pydict pyval) (name : string) (default : pyval) : pyval :=
  from_option id default (dict_get attrs name).

(** [getter]: the [else] branch evaluates [getattr] and has no [return], so
    the call gives [None]. *)
Definition getter (dict_or_obj : input) (field : string) (default : pyval) : pyval :=
  match dict_or_obj with
  | DictData d => from_option id default (dict_get d field)
  | ObjData attrs => let _ := getattr_or attrs field default in VNone
  end.

(** What a class attribute holds: a [Field], one of the three attributes the
    [schema] decorator sets, or anything else. *)
Inductive attr : Type :=
| AField (f : Field)
| AClean
| AInit
| ASerialize
| AOther.

(** A type annotation: a plain type, [NoneType], or a [Union]. *)
#[warnings="-register-all"]
Inductive annotation : Type :=
| TName (name : string)
| TNoneType
| TUnion (args : list annotation).

(** A class: its [__dict__] and its [__annotations__]. *)
Record class : Type := mkClass {
  cls_dict : pydict attr;
  cls_annotations : pydict annotation;
}.

Definition as_field (item : string * attr) : option (string * Field) :=
  match item.2 with AField f => Some (item.1, f) | _ => None end.

Definition get_fields (cls : class) : pydict Field :=
  dict_of_items (omap as_field (cls_dict cls)).

(** [setattr(cls, name, a)] *)
Definition setattr (cls : class) (name : string) (a : attr) : class :=
  mkClass (dict_set (cls_dict cls) name a) (cls_annotations cls).

(** *** Fields from annotations *)

Section Annotations.

(** [FIELD_TYPE_MAP], the lookup table of field.py from a type to its
    built-in validator. *)
Variable FIELD_TYPE_MAP : annotation → option validator.

Definition is_NoneType (t : annotation) : bool :=
  match t with TNoneType => true | _ => false end.

Definition _field_def_from_annotation (ann : annotation) : res Field :=
  let unrecognized := Raise (TypeError "Unrecognized type annotation.") in
  match FIELD_TYPE_MAP ann with
  | Some v => Ok (simple_field [v] Required)
  | None =>
      match ann with
      | TUnion union_of =>
          if bool_decide (length union_of = 2) && existsb is_NoneType union_of
          then
            match List.find (λ t, negb (is_NoneType t)) union_of with
            | Some inner =>
                match FIELD_TYPE_MAP inner with
                | Some v => Ok (simple_field [v] Optional)
                | None => unrecognized
                end
            | None => unrecognized
            end
          else unrecognized
      | _ => unrecognized
      end
  end.

(** The loop of [schema] over [__annotations__]; [existing_fields] is
    read once, before the loop. *)
Fixpoint autodef_loop (existing_fields : pydict Field)
    (annotations : list (string * annotation)) (cls : class) : res class :=
  match annotations with
  | [] => Ok cls
  | (field, f_type) :: rest =>
      if dict_mem existing_fields field
      then autodef_loop existing_fields rest cls
      else
        match _field_def_from_annotation f_type with
        | Ok f_def => autodef_loop existing_fields rest (setattr cls field (AField f_def))
        | Raise e => Raise e
        end
  end.

End Annotations.

(** *** The dependency check *)

(** [not f_deps or all([f_dep in seen for f_dep in f_deps])] *)
Definition resolved (seen f_deps : gset string) : bool :=
  bool_decide (f_deps = ∅)
  || forallb (λ f_dep, bool_decide (f_dep ∈ seen)) (elements f_deps).

(** The [for] loop of one pass: the first field whose dependencies are all
    seen is added to [seen] and popped, and the loop breaks. *)
Definition resolve_pass (deps : pydict (gset string)) (seen : gset string)
    : pydict (gset string) * gset string :=
  match List.find (λ item, resolved seen item.2) deps with
  | Some (f_name, _) => (dict_pop deps f_name, {[f_name]} ∪ seen)
  | None => (deps, seen)
  end.

Definition unresolved : exn := ValueError "Field dependencies could not be resolved.".

(** [while deps: ...]; [None] when the passes allowed are used up. *)
Fixpoint check_loop (passes : nat) (deps : pydict (gset string)) (seen : gset string)
    : option (res ()) :=
  match deps with
  | [] => Some (Ok ())
  | _ :: _ =>
      match passes with
      | 0 => None
      | S passes' =>
          let prog := size seen in
          let '(deps', seen') := resolve_pass deps seen in
          if decide (size seen' = prog) then Some (Raise unresolved)
          else check_loop passes' deps' seen'
      end
  end.

Definition field_deps (cls : class) : pydict (gset string) :=
  dict_of_items ((λ item, (item.1, list_to_set (depends_on item.2))) <$> get_fields cls).

(** Every pass that does not raise pops one field, so as many passes as
    there are fields are allowed. *)
Definition _check_for_dependency_loops (cls : class) : option (res ()) :=
  let deps := field_deps cls in
  check_loop (length deps) deps ∅.

(** *** The evaluation loop *)

(** A schema instance: its class and the attributes set on it. *)
Record instance : Type := mkInstance {
  inst_class : class;
  inst_attrs : pydict pyval;
}.

(** What [_clean] returns. *)
Inductive cleaned : Type :=
| Instance (self : instance)
| Invalid (err : ValidationError).

(** [field_def.accepts or (field_name,)] *)
Definition accepted (field_name : string) (field_def : Field) : list string :=
  match accepts field_def with
  | [] => [field_name]
  | keys => keys
  end.

(** The [for accept in accepts] loop; [value] starts as [empty] ([None]
    here) and the loop breaks at the first value that is not [omitted]. *)
Fixpoint read_value (data : input) (accepts : list string) (value : option pyval)
    : option pyval :=
  match accepts with
  | [] => value
  | accept :: rest =>
      let value := getter data accept VOmitted in
      if is_omitted value then read_value data rest (Some value) else Some value
  end.

(** [dep in results and isinstance(results[dep], Value)] *)
Definition has_Value (results : pydict outcome) (dep : string) : bool :=
  match dict_get results dep with
  | Some o => is_Value o
  | None => false
  end.

(** The scan of [delayed_eval] after a field has been evaluated;
    [queued_fields] is read once, before the scan. *)
Definition rescan (delayed_eval : list (string * Field)) (results : pydict outcome)
    (eval_queue : list (string * Field)) : list (string * Field) :=
  let queued_fields : gset string := list_to_set (eval_queue.*1) in
  foldl (λ queue item,
           if negb (dict_mem results item.1)
              && bool_decide (item.1 ∉ queued_fields)
              && forallb (has_Value results) (depends_on item.2)
           then queue ++ [item] else queue)
        eval_queue delayed_eval.

(** [while eval_queue: ...]; [None] when the rounds allowed are used up. *)
Fixpoint eval_loop (rounds : nat) (data : input) (ctx : context)
    (delayed_eval eval_queue : list (string * Field)) (results : pydict outcome)
    : option (res (pydict outcome)) :=
  match list_pop eval_queue with
  | None => Some (Ok results)
  | Some (eval_queue, (field_name, field_def)) =>
      match rounds with
      | 0 => None
      | S rounds' =>
          match read_value data (accepted field_name field_def) None with
          | None => Some (Raise AssertionError)
          | Some value =>
              let results :=
                dict_set results field_name
                  (run_validators field_def [field_name] value ctx results) in
              eval_loop rounds' data ctx delayed_eval
                (rescan delayed_eval results eval_queue) results
          end
      end
  end.

(** [_new_init(self, k=v, ...)], the [__init__] of a decorated class, as
    [cls(k=v, ...)] calls it with its keyword arguments. A keyword named
    [self] collides with the first parameter: the call raises [TypeError]
    and the body does not run. *)
Definition _new_init (cls : class) (kwargs : pydict pyval) : res instance :=
  if dict_mem kwargs "self"
  then Raise (TypeError "_new_init() got multiple values for argument 'self'")
  else
    let defined_fields := get_fields cls in
    let attribs := dict_of_items (filter (λ kv, dict_mem defined_fields kv.1) kwargs) in
    Ok (mkInstance cls (foldl (λ self kv, dict_set self kv.1 kv.2) [] attribs)).

(** The part of [_clean] up to the end of the [while] loop: the outcomes
    recorded, in the order of evaluation. The loop evaluates one more field
    in every round, so as many rounds as there are fields are allowed. *)
Definition evaluate (cls : class) (data : input) (ctx : context)
    : option (res (pydict outcome)) :=
  let field_defs := get_fields cls in
  let eval_queue := filter (λ item, depends_on item.2 = []) field_defs in
  let delayed_eval := filter (λ item, depends_on item.2 ≠ []) field_defs in
  if decide (length field_defs = length eval_queue + length delayed_eval)
  then eval_loop (length field_defs) data ctx delayed_eval eval_queue []
  else Some (Raise AssertionError).

(** The part of [_clean] after the loop. *)
Definition aggregate (cls : class) (results : pydict outcome) : res cleaned :=
  let errors := concat (flatten <$> filter (λ v, is_Value v = false) (results.*2)) in
  match errors with
  | _ :: _ => Ok (Invalid (mkValidationError errors))
  | [] =>
      match mapM (λ kv, pair kv.1 <$> value_of kv.2) results with
      | Some kwargs =>
          match _new_init cls kwargs with
          | Ok self => Ok (Instance self)
          | Raise e => Raise e
          end
      | None => Raise (AttributeError "value")
      end
  end.

Definition _clean (cls : class) (data : input) (ctx : context) : option (res cleaned) :=
  match evaluate cls data ctx with
  | Some (Ok results) => Some (aggregate cls results)
  | Some (Raise e) => Some (Raise e)
  | None => None
  end.

(** *** Serialisation *)

(** [getattr(self, field_name)]: the attribute of the instance, the class
    attribute (the [Field] itself) when the instance has none. *)
Definition getattr (self : instance) (field_name : string) : pyval :=
  from_option id (VFieldRef field_name) (dict_get (inst_attrs self) field_name).

(** [field_def.serialize_to or field_name] *)
Definition output_key (field_name : string) (field_def : Field) : string :=
  match serialize_to field_def with
  | Some key => if decide (key = "") then field_name else key
  | None => field_name
  end.

Definition _serialize (self : instance) : pydict pyval :=
  dict_of_items
    ((λ item, (output_key item.1 item.2, serialize_func item.2 (getattr self item.1)))
       <$> get_fields (inst_class self)).

(** *** The decorator and the two entry points *)

(** The first part of [schema]: with [autodef], a field is defined for
    every annotated attribute that is not a field already. *)
Definition define_fields (FIELD_TYPE_MAP : annotation → option validator)
    (cls : class) (autodef : bool) : res class :=
  if autodef
  then autodef_loop FIELD_TYPE_MAP (get_fields cls) (cls_annotations cls) cls
  else Ok cls.

Definition schema (FIELD_TYPE_MAP : annotation → option validator)
    (cls : class) (autodef : bool) : option (res class) :=
  match define_fields FIELD_TYPE_MAP cls autodef with
  | Raise e => Some (Raise e)
  | Ok cls =>
      match _check_for_dependency_loops cls with
      | None => None
      | Some (Raise e) => Some (Raise e)
      | Some (Ok _) =>
          let cls := setattr cls "__clean" AClean in
          let cls := setattr cls "__init__" AInit in
          let cls := setattr cls "__serialize" ASerialize in
          Some (Ok cls)
      end
  end.

(** [schema.__clean(data=data, context=context)]; [__clean] is the
    [_clean] of the class the decorator was applied to. *)
Definition clean (schema : class) (data : input) (ctx : context) : option (res cleaned) :=
  match dict_get (cls_dict schema) "__clean" with
  | Some AClean => _clean schema data ctx
  | Some _ => Some (Raise (TypeError "__clean"))
  | None => Some (Raise (AttributeError "__clean"))
  end.

(** [schema.__serialize()] *)
Definition serialize (self : instance) : res (pydict pyval) :=
  match dict_get (cls_dict (inst_class self)) "__serialize" with
  | Some ASerialize => Ok (_serialize self)
  | Some _ => Raise (TypeError "__serialize")
  | None => Raise (AttributeError "__serialize")
  end.

(** ** Notions the properties are stated with *)

(** [a] declares [b] as a dependency. *)
Definition depends (cls : class) (a b : string) : Prop :=
  ∃ f, (a, f) ∈ get_fields cls ∧ b ∈ depends_on f.

(** The fields of [cls] have a circular dependency: some field reaches
    itself along declared dependencies. *)
Definition circular (cls : class) : Prop := ∃ a, tc (depends cls) a a.

(** Some field of [cls] declares a dependency that [cls] does not define. *)
Definition dangling (cls : class) : Prop :=
  ∃ a b, depends cls a b ∧ b ∉ dict_keys (get_fields cls).

(** [name] can be resolved: it is a field, and so can its dependencies. *)
Inductive grounded (fields : pydict Field) : string → Prop :=
| grounded_field name f :
    (name, f) ∈ fields →
    (∀ dep, dep ∈ depends_on f → grounded fields dep) →
    grounded fields name.

(** The record of one run of the evaluation loop, one step for each field
    evaluated: the field is defined, has no outcome yet, each of its
    dependencies has a [Value], and its outcome is that of its executor on
    the raw value read from the input and on the outcomes before it. *)
Inductive trace (fields : pydict Field) (data : input) (ctx : context)
    : pydict outcome → Prop :=
| trace_start : trace fields data ctx []
| trace_step results name f value :
    trace fields data ctx results →
    (name, f) ∈ fields →
    dict_get results name = None →
    Forall (λ dep, has_Value results dep = true) (depends_on f) →
    read_value data (accepted name f) None = Some value →
    trace fields data ctx
      (results ++ [(name, run_validators f [name] value ctx results)]).

(** What the loop keeps true of its queue: no field is queued twice, and
    a queued field is defined, not evaluated yet and has a [Value] for each
    of its dependencies; a field with a [Value] for each of its dependencies
    is evaluated or queued. *)
Definition queue_ok (fields : pydict Field) (results : pydict outcome)
    (eval_queue : list (string * Field)) : Prop :=
  NoDup (eval_queue.*1)
  ∧ (∀ name f, (name, f) ∈ eval_queue →
       (name, f) ∈ fields ∧ dict_get results name = None
       ∧ Forall (λ dep, has_Value results dep = true) (depends_on f))
  ∧ (∀ name f, (name, f) ∈ fields →
       Forall (λ dep, has_Value results dep = true) (depends_on f) →
       name ∈ dict_keys results ∨ name ∈ eval_queue.*1).

(** The raw value in the spec's words: the value of the first accepted key
    present in the input, [omitted] when none is. *)
Fixpoint first_present (d : pydict pyval) (keys : list string) : pyval :=
  match keys with
  | [] => VOmitted
  | key :: rest =>
      match dict_get d key with
      | Some v => v
      | None => first_present d rest
      end
  end.

(** The raw value in the words of the amended claim: the value of the first
    accepted key that is present with a value other than [omitted],
    [omitted] when there is none. *)
Fixpoint first_not_omitted (d : pydict pyval) (keys : list string) : pyval :=
  match keys with
  | [] => VOmitted
  | key :: rest =>
      match dict_get d key with
      | Some v => if is_omitted v then first_not_omitted d rest else v
      | None => first_not_omitted d rest
      end
  end.

(** [x == y] on inputs *)
Definition same_data (x y : input) : Prop :=
  match x, y with
  | DictData d1, DictData d2 => dict_eq d1 d2
  | ObjData a1, ObjData a2 => dict_eq a1 a2
  | _, _ => False
  end.

(** The errors of the outcomes that are not a [Value], flattened, in the
    order of the record. *)
Definition flat_errors (results : pydict outcome) : list Error :=
  concat (flatten <$> filter (λ v, is_Value v = false) (results.*2)).

(** Every field of the class has exactly one recorded outcome. *)
Definition every_field_has_one_outcome (cls : class) (results : pydict outcome) : Prop :=
  ∀ name f, (name, f) ∈ get_fields cls →
    ∃ o, (name, o) ∈ results ∧ ∀ o', (name, o') ∈ results → o' = o.

(** No field is renamed on output and every output transform is the
    identity. *)
Definition plain_output (sch : class) : Prop :=
  Forall (λ item, output_key item.1 item.2 = item.1
                  ∧ ∀ v, serialize_func item.2 v = v)
         (get_fields sch).

(** [serialize(clean(schema, data)) == data] *)
Definition round_trips (sch : class) (d : pydict pyval) (ctx : context) : Prop :=
  ∃ self out,
    clean sch (DictData d) ctx = Some (Ok (Instance self))
    ∧ serialize self = Ok out
    ∧ dict_eq out d.

(** ** The schemas of tests/chausie/test_field.py *)

Module Examples.

(** Modelled from the spec: [intfield] of field.py, the built-in validator
    of integers. The tests hand it integers only; the message for anything
    else is a placeholder. *)
Definition intfield : validator := λ value _ _,
  match value with
  | VInt z => RValue (VInt z)
  | _ => RError (mkError "Expected an int." [])
  end.

(** [mylowint] of [example_schema]; [intfield] comes before it in the
    chain, so it is handed integers. *)
Definition mylowint : validator := λ value _ _,
  match value with
  | VInt z =>
      if decide (z < 5)%Z then RValue (VInt z)
      else RError (mkError "Needs to be less than 5" [])
  | v => RValue v
  end.

(** A validator that rejects every value. *)
Definition reject : validator := λ _ _ _, RError (mkError "rejected" []).

(** Modelled from the spec: a [FIELD_TYPE_MAP] (the table of field.py) with
    [int] only, whatever its validator. *)
Definition int_only (int_validator : validator) (t : annotation) : option validator :=
  match t with
  | TName "int" => Some int_validator
  | _ => None
  end.

Definition FIELD_TYPE_MAP : annotation → option validator := int_only intfield.

(** [ExampleSchema], before the decorator. *)
Definition ExampleSchema : class :=
  mkClass
    [("myint", AField (make_field [intfield] ["myint"; "deprecated_int"] [] Required None id));
     ("mylowint", AField (make_field [intfield; mylowint] [] [] Required None id))]
    [].

(** [class MySchema: myint: int] and [class MySchema: myint: Optional[int]] *)
Definition RequiredInt : class := mkClass [] [("myint", TName "int")].
Definition OptionalInt : class :=
  mkClass [] [("myint", TUnion [TName "int"; TNoneType])].

(** [b] depends on [a], and [a] rejects its value. *)
Definition Dependent : class :=
  mkClass
    [("a", AField (make_field [reject] [] [] Required None id));
     ("b", AField (make_field [intfield] [] ["a"] Required None id))]
    [].

(** [a] depends on [b] and [b] on [a]. *)
Definition Circular : class :=
  mkClass
    [("a", AField (make_field [intfield] [] ["b"] Required None id));
     ("b", AField (make_field [intfield] [] ["a"] Required None id))]
    [].

(** [a] depends on [ghost], which the class does not define. *)
Definition Dangling : class :=
  mkClass
    [("a", AField (make_field [intfield] [] ["ghost"] Required None id));
     ("c", AField (make_field [intfield] [] [] Required None id))]
    [].

(** The decorated class, had the decorator returned one. *)
Definition decorated (cls : class) : class :=
  match schema FIELD_TYPE_MAP cls true with
  | Some (Ok cls') => cls'
  | _ => cls
  end.

End Examples.

(** ** A schema with a rename and an output transform *)

Module SerializeExamples.

(** [double] of [test_serialize_func], which hands it an integer. *)
Definition double (value : pyval) : pyval :=
  match value with
  | VInt z => VInt (z * 2)
  | v => v
  end.

(** The fields of [test_serialize_to] and [test_serialize_func] in one
    class: [myint] is renamed to [my_new_int], [twice] is doubled. *)
Definition Renamed : class :=
  mkClass
    [("myint", AField (make_field [Examples.intfield] [] [] Required (Some "my_new_int") id));
     ("twice", AField (make_field [Examples.intfield] [] [] Required None double))]
    [].

End SerializeExamples.

(** ** Classes at the corners of [_clean] *)

Module Corners.

(** A field that hands the raw value on as its [Value]. *)
Definition echo (accepts : list string) : Field :=
  {| run_validators := λ _ value _ _, Value value;
     accepts := accepts;
     depends_on := [];
     serialize_to := None;
     serialize_func := id |}.




(** [myint] with the alternate key of [example_schema], handing the raw
    value on. *)
Definition Aliased : class :=
  mkClass [("myint", AField (echo ["myint"; "deprecated_int"]))] [].

End Corners.

(** * Properties *)

(** ** Dictionaries and lists *)

Section Dicts.
Context {V : Type}.
Implicit Types (d : pydict V) (k : string) (v : V).

Lemma dict_get_None d k : dict_get d k = None ↔ k ∉ dict_keys d.
Proof.
  unfold dict_keys. induction d as [|[k' v'] d IH]; simpl.
  - split; [intros _; apply not_elem_of_nil | done].
  - rewrite not_elem_of_cons. case_decide; subst; intuition congruence.
Qed.

Lemma dict_get_Some_elem d k v : dict_get d k = Some v → (k, v) ∈ d.
Proof.
  induction d as [|[k' v'] d IH]; simpl; [done|].
  case_decide; [intros [= ->]; subst; left | right; auto].
Qed.

Lemma elem_dict_get d k v : NoDup (dict_keys d) → (k, v) ∈ d → dict_get d k = Some v.
Proof.
  unfold dict_keys. induction d as [|[k' v'] d IH]; simpl.
  - intros _ H. by apply elem_of_nil in H.
  - rewrite NoDup_cons. intros [Hk Hd] [[= -> ->]|Hin]%elem_of_cons.
    + by rewrite decide_True.
    + rewrite decide_False; [auto|]. intros ->. apply Hk.
      apply list_elem_of_fmap. by exists (k, v).
Qed.

Lemma elem_dict_keys d k v : (k, v) ∈ d → k ∈ dict_keys d.
Proof. intros. apply list_elem_of_fmap. by exists (k, v). Qed.

Lemma dict_keys_elem d k : k ∈ dict_keys d → ∃ v, dict_get d k = Some v.
Proof.
  intros Hk. destruct (dict_get d k) eqn:E; [eauto|].
  by apply dict_get_None in E.
Qed.

Lemma dict_mem_keys d k : dict_mem d k = true ↔ k ∈ dict_keys d.
Proof.
  unfold dict_mem. rewrite bool_decide_eq_true. split.
  - intros [v Hv]. by eapply elem_dict_keys, dict_get_Some_elem.
  - intros [v Hv]%dict_keys_elem. by exists v.
Qed.

Lemma dict_set_fresh d k v : dict_get d k = None → dict_set d k v = d ++ [(k, v)].
Proof.
  induction d as [|[k' v'] d IH]; simpl; [done|].
  case_decide; [done|]. intros H'. by rewrite IH.
Qed.

Lemma dict_get_set d k v k' :
  dict_get (dict_set d k v) k' = if decide (k = k') then Some v else dict_get d k'.
Proof.
  induction d as [|[k0 v0] d IH]; simpl.
  - repeat case_decide; congruence.
  - repeat (case_decide; simpl); try congruence.
Qed.

Lemma dict_keys_set d k v k' :
  k' ∈ dict_keys (dict_set d k v) ↔ k' = k ∨ k' ∈ dict_keys d.
Proof.
  unfold dict_keys. induction d as [|[k0 v0] d IH]; simpl.
  - rewrite list_elem_of_singleton, elem_of_nil. tauto.
  - case_decide; subst; simpl; rewrite !elem_of_cons; [tauto|]. rewrite IH. tauto.
Qed.

Lemma dict_set_NoDup d k v : NoDup (dict_keys d) → NoDup (dict_keys (dict_set d k v)).
Proof.
  unfold dict_keys. induction d as [|[k0 v0] d IH]; simpl.
  - intros _. apply NoDup_singleton.
  - rewrite NoDup_cons. intros [Hk Hd]. case_decide; subst; simpl.
    + by apply NoDup_cons.
    + apply NoDup_cons. split; [|auto].
      intros [->|?]%dict_keys_set; done.
Qed.

Lemma dict_of_items_acc_NoDup (items : list (string * V)) d :
  NoDup (dict_keys d) →
  NoDup (dict_keys (foldl (λ d kv, dict_set d kv.1 kv.2) d items)).
Proof.
  revert d. induction items as [|[k v] items IH]; simpl; [done|].
  intros d Hd. by apply IH, dict_set_NoDup.
Qed.

Lemma dict_of_items_NoDup (items : list (string * V)) : NoDup (dict_keys (dict_of_items items)).
Proof. apply dict_of_items_acc_NoDup, NoDup_nil_2. Qed.

Lemma dict_of_items_acc_id (items : list (string * V)) d :
  NoDup (dict_keys (d ++ items)) →
  foldl (λ d kv, dict_set d kv.1 kv.2) d items = d ++ items.
Proof.
  revert d. induction items as [|[k v] items IH]; simpl; intros d Hd.
  - by rewrite app_nil_r.
  - rewrite dict_set_fresh.
    + rewrite IH; rewrite <- app_assoc; done.
    + apply dict_get_None. unfold dict_keys in *.
      rewrite fmap_app in Hd. apply NoDup_app in Hd as (_ & Hd & _).
      intros Hk. apply (Hd k Hk). simpl. left.
Qed.

Lemma dict_of_items_id (items : list (string * V)) :
  NoDup (dict_keys items) → dict_of_items items = items.
Proof. intros. by apply (dict_of_items_acc_id items []). Qed.

Lemma dict_pop_length d k :
  k ∈ dict_keys d → S (length (dict_pop d k)) = length d.
Proof.
  unfold dict_keys. induction d as [|[k0 v0] d IH]; simpl.
  - by intros ?%elem_of_nil.
  - case_decide; [done|]. intros [?|?]%elem_of_cons; [congruence|].
    simpl. by rewrite IH.
Qed.

Lemma elem_dict_pop d k k' v : (k', v) ∈ d → k' = k ∨ (k', v) ∈ dict_pop d k.
Proof.
  induction d as [|[k0 v0] d IH]; simpl.
  - by intros ?%elem_of_nil.
  - intros [[= -> ->]|Hin]%elem_of_cons.
    + case_decide; [by left | right; left].
    + case_decide; [by right|]. destruct (IH Hin); [by left|right; by right].
Qed.

Lemma dict_pop_elem d k k' v : (k', v) ∈ dict_pop d k → (k', v) ∈ d.
Proof.
  induction d as [|[k0 v0] d IH]; simpl; [done|].
  case_decide; [by right|]. intros [->|?]%elem_of_cons; [left | right; auto].
Qed.

Lemma list_pop_None (l : list V) : list_pop l = None ↔ l = [].
Proof. destruct l; simpl; [done|]. destruct (list_pop l) as [[]|]; done. Qed.

Lemma list_pop_snoc (init : list V) x : list_pop (init ++ [x]) = Some (init, x).
Proof. induction init as [|y init IH]; simpl; [done|]. by rewrite IH. Qed.

Lemma list_pop_Some (l init : list V) x : list_pop l = Some (init, x) → l = init ++ [x].
Proof.
  destruct l as [|y l _] using rev_ind; [done|].
  rewrite list_pop_snoc. by intros [= -> ->].
Qed.
End Dicts.

(** ** The dependency check *)

Lemma resolved_spec (seen f_deps : gset string) :
  resolved seen f_deps = true ↔ f_deps ⊆ seen.
Proof.
  unfold resolved. rewrite orb_true_iff, bool_decide_eq_true, forallb_forall.
  split.
  - intros [->|H]; [set_solver|]. intros x Hx.
    specialize (H x). rewrite <- list_elem_of_In, elem_of_elements in H.
    apply H in Hx. by apply bool_decide_eq_true in Hx.
  - intros H. right. intros x Hx%list_elem_of_In%elem_of_elements.
    apply bool_decide_eq_true. auto.
Qed.

Lemma find_Some_elem {A} (p : A → bool) l x :
  List.find p l = Some x → x ∈ l ∧ p x = true.
Proof. intros [H1 H2]%find_some. by rewrite list_elem_of_In. Qed.

Lemma find_None_elem {A} (p : A → bool) l x :
  List.find p l = None → x ∈ l → p x = false.
Proof. intros H Hx%list_elem_of_In. by eapply find_none. Qed.

Implicit Types (deps : pydict (gset string)) (seen : gset string) (passes : nat).

(** What one pass changes. *)
Lemma resolve_pass_cases deps seen :
  (resolve_pass deps seen = (deps, seen)
   ∧ ∀ name f_deps, (name, f_deps) ∈ deps → ¬ f_deps ⊆ seen)
  ∨ (∃ f_name f_deps,
       (f_name, f_deps) ∈ deps ∧ f_deps ⊆ seen
       ∧ resolve_pass deps seen = (dict_pop deps f_name, {[f_name]} ∪ seen)).
Proof.
  unfold resolve_pass.
  destruct (List.find _ deps) as [[f_name f_deps]|] eqn:E.
  - right. apply find_Some_elem in E as [Hin Hres]. apply resolved_spec in Hres.
    by exists f_name, f_deps.
  - left. split; [done|]. intros name f_deps Hin Hsub.
    apply (find_None_elem _ _ _ E) in Hin. simpl in Hin.
    apply resolved_spec in Hsub. congruence.
Qed.

(** The check ends within as many passes as there are pending fields. *)
Lemma check_loop_total passes deps seen :
  (length deps ≤ passes)%nat → ∃ r, check_loop passes deps seen = Some r.
Proof.
  revert deps seen. induction passes as [|passes IH]; intros deps seen Hlen.
  - destruct deps; [by eexists | simpl in Hlen; lia].
  - destruct deps as [|item deps]; [by eexists|].
    cbn [check_loop]. 
    destruct (resolve_pass_cases (item :: deps) seen)
      as [[-> _]|(f_name & f_deps & Hin & Hsub & ->)].
    + rewrite decide_True by done. by eexists.
    + case_decide; [by eexists|]. apply IH.
      apply elem_dict_keys in Hin. apply dict_pop_length in Hin.
      simpl in *. lia.
Qed.

(** A set of names, one of them a pending field, in which every pending
    field waits for a name of the set, is never resolved: the check raises. *)
Lemma check_loop_blocked (B : string → Prop) passes deps seen :
  (∀ name f_deps, (name, f_deps) ∈ deps → B name → ∃ dep, dep ∈ f_deps ∧ B dep) →
  (∀ name, name ∈ seen → ¬ B name) →
  (∃ name f_deps, (name, f_deps) ∈ deps ∧ B name) →
  (length deps ≤ passes)%nat →
  check_loop passes deps seen = Some (Raise unresolved).
Proof.
  revert deps seen. induction passes as [|passes IH]; intros deps seen Hwait Hseen Hsome Hlen.
  - destruct Hsome as (name & f_deps & Hin & _).
    destruct deps; [by apply elem_of_nil in Hin | simpl in Hlen; lia].
  - destruct deps as [|item deps].
    { destruct Hsome as (name & f_deps & Hin & _). by apply elem_of_nil in Hin. }
    cbn [check_loop].
    destruct (resolve_pass_cases (item :: deps) seen)
      as [[-> _]|(f_name & f_deps & Hin & Hsub & ->)].
    + by rewrite decide_True.
    + case_decide; [done|].
      assert (¬ B f_name) as HnB.
      { intros HB. destruct (Hwait _ _ Hin HB) as (dep & Hdep & HBdep).
        apply (Hseen dep); auto. }
      apply IH.
      * intros name fd Hin'%dict_pop_elem. eauto.
      * intros name [->%elem_of_singleton|?]%elem_of_union; auto.
      * destruct Hsome as (name & fd & Hin' & HB). exists name, fd. split; [|done].
        destruct (elem_dict_pop _ f_name _ _ Hin'); [congruence|done].
      * apply elem_dict_keys in Hin. apply dict_pop_length in Hin. simpl in *. lia.
Qed.

(** When the check passes, every pending field can be resolved from the
    names seen. *)
Lemma check_loop_Ok (G : string → Prop) passes deps seen :
  (∀ name f_deps, (name, f_deps) ∈ deps → (∀ dep, dep ∈ f_deps → G dep) → G name) →
  (∀ name, name ∈ seen → G name) →
  check_loop passes deps seen = Some (Ok ()) →
  ∀ name, name ∈ dict_keys deps → G name.
Proof.
  revert deps seen. induction passes as [|passes IH]; intros deps seen Hstep Hseen Hok name Hname.
  - destruct deps; [by apply elem_of_nil in Hname | done].
  - destruct deps as [|item deps]; [by apply elem_of_nil in Hname|].
    cbn [check_loop] in Hok.
    destruct (resolve_pass_cases (item :: deps) seen)
      as [[Heq _]|(f_name & f_deps & Hin & Hsub & Heq)]; rewrite Heq in Hok.
    + by rewrite decide_True in Hok.
    + case_decide; [done|].
      assert (G f_name) as HG by (eapply Hstep; eauto).
      apply list_elem_of_fmap in Hname as ([name' fd] & -> & Hin').
      destruct (elem_dict_pop _ f_name _ _ Hin') as [->|Hin'']; [done|].
      apply (IH (dict_pop (item :: deps) f_name) ({[f_name]} ∪ seen)); [| |done|].
      * intros n fd' Hn%dict_pop_elem. eauto.
      * intros n [->%elem_of_singleton|?]%elem_of_union; auto.
      * by eapply elem_dict_keys.
Qed.

Lemma get_fields_NoDup cls : NoDup (dict_keys (get_fields cls)).
Proof. apply dict_of_items_NoDup. Qed.

Lemma get_fields_unique cls name f f' :
  (name, f) ∈ get_fields cls → (name, f') ∈ get_fields cls → f = f'.
Proof.
  intros H H'. apply (elem_dict_get _ _ _ (get_fields_NoDup cls)) in H, H'. congruence.
Qed.

Lemma field_deps_fmap cls :
  field_deps cls
  = (λ item, (item.1, list_to_set (depends_on item.2))) <$> get_fields cls.
Proof.
  unfold field_deps. apply dict_of_items_id. unfold dict_keys.
  rewrite <- list_fmap_compose. apply get_fields_NoDup.
Qed.

Lemma elem_field_deps cls name f_deps :
  (name, f_deps) ∈ field_deps cls
  ↔ ∃ f, (name, f) ∈ get_fields cls ∧ f_deps = list_to_set (depends_on f).
Proof.
  rewrite field_deps_fmap, list_elem_of_fmap. split.
  - intros ([n f] & [= -> ->] & Hin). by exists f.
  - intros (f & Hin & ->). by exists (name, f).
Qed.

(** The check always ends: it returns or it raises. *)
Lemma check_total cls : ∃ r, _check_for_dependency_loops cls = Some r.
Proof. by apply check_loop_total. Qed.

Lemma tc_cycle_step {A} (R : relation A) x : tc R x x → ∃ y, R x y ∧ tc R y y.
Proof.
  intros H. inversion H as [? ? Hxx|? y ? Hxy Hyx]; subst.
  - by exists x.
  - exists y. split; [done|]. by eapply tc_r.
Qed.

Lemma check_circular cls :
  circular cls → _check_for_dependency_loops cls = Some (Raise unresolved).
Proof.
  intros [a Ha]. apply (check_loop_blocked (λ x, tc (depends cls) x x)); [| |  |done].
  - intros name f_deps (f & Hin & ->)%elem_field_deps Hcycle.
    apply tc_cycle_step in Hcycle as (dep & (f' & Hin' & Hdep) & Hback).
    exists dep. split; [|done].
    rewrite (get_fields_unique _ _ _ _ Hin Hin'). by apply elem_of_list_to_set.
  - intros name []%not_elem_of_empty.
  - pose proof Ha as (dep & (f & Hin & Hdep) & Hback)%tc_cycle_step.
    exists a, (list_to_set (depends_on f)). split; [|done].
    apply elem_field_deps. by exists f.
Qed.

Lemma check_dangling cls :
  dangling cls → _check_for_dependency_loops cls = Some (Raise unresolved).
Proof.
  intros (a & b & (f & Hin & Hdep) & Hundef).
  apply (check_loop_blocked (λ x, x = a ∨ x ∉ dict_keys (get_fields cls))); [| | |done].
  - intros name f_deps (f' & Hin' & ->)%elem_field_deps [->|Hout].
    + exists b. rewrite (get_fields_unique _ _ _ _ Hin' Hin).
      split; [by apply elem_of_list_to_set | by right].
    + destruct Hout. by eapply elem_dict_keys.
  - intros name []%not_elem_of_empty.
  - exists a, (list_to_set (depends_on f)). split; [|by left].
    apply elem_field_deps. by exists f.
Qed.

Lemma check_Ok_grounded cls :
  _check_for_dependency_loops cls = Some (Ok ()) →
  ∀ name, name ∈ dict_keys (get_fields cls) → grounded (get_fields cls) name.
Proof.
  intros Hok name Hname.
  apply (check_loop_Ok (grounded (get_fields cls)) _ _ _) with (name := name) in Hok; [done| | |].
  - intros n f_deps (f & Hin & ->)%elem_field_deps Hdeps.
    apply (grounded_field _ _ f); [done|].
    intros dep Hdep. by apply Hdeps, elem_of_list_to_set.
  - intros n []%not_elem_of_empty.
  - rewrite field_deps_fmap. unfold dict_keys. by rewrite <- list_fmap_compose.
Qed.

(** ** The evaluation loop *)

Implicit Types (results : pydict outcome) (fields : pydict Field).

Lemma dict_get_app {V} (d d' : pydict V) k :
  dict_get (d ++ d') k = match dict_get d k with Some v => Some v | None => dict_get d' k end.
Proof.
  induction d as [|[k0 v0] d IH]; simpl; [done|]. by case_decide.
Qed.

Lemma has_Value_app results results' dep :
  has_Value results dep = true → has_Value (results ++ results') dep = true.
Proof.
  unfold has_Value. rewrite dict_get_app. by destruct (dict_get results dep).
Qed.

Lemma has_Value_inv results dep :
  has_Value results dep = true → ∃ v, dict_get results dep = Some (Value v).
Proof.
  unfold has_Value. destruct (dict_get results dep) as [[]|]; try done. eauto.
Qed.

Lemma accepted_cons name f : ∃ key keys, accepted name f = key :: keys.
Proof. unfold accepted. destruct (accepts f); eauto. Qed.

(** The assertion after the loop over the accepted keys holds: the loop
    runs at least once. *)
Lemma read_value_Some data name f :
  ∃ value, read_value data (accepted name f) None = Some value.
Proof.
  destruct (accepted_cons name f) as (key & keys & ->). simpl.
  destruct (is_omitted _); [|eauto].
  generalize (getter data key VOmitted). induction keys as [|k keys IH]; simpl; [eauto|].
  intros _. destruct (is_omitted _); eauto.
Qed.

Section Trace.
Context (fields : pydict Field) (data : input) (ctx : context).

Lemma trace_keys results :
  trace fields data ctx results →
  NoDup (dict_keys results) ∧ dict_keys results ⊆ dict_keys fields.
Proof.
  induction 1 as [|results name f value _ [IHn IHs] Hin Hfresh _ _].
  - split; [apply NoDup_nil_2 | apply list_subseteq_nil].
  - unfold dict_keys in *. rewrite fmap_app. simpl. split.
    + apply NoDup_app. split_and!; [done| |apply NoDup_singleton].
      intros x Hx ->%list_elem_of_singleton. by apply dict_get_None in Hfresh.
    + intros x [Hx| ->%list_elem_of_singleton]%elem_of_app; [auto|].
      by eapply elem_dict_keys.
Qed.

Lemma trace_length results :
  trace fields data ctx results → (length results ≤ length fields)%nat.
Proof.
  intros [Hn Hs]%trace_keys. unfold dict_keys in *.
  rewrite <- (length_fmap fst results), <- (length_fmap fst fields).
  by apply submseteq_length, NoDup_submseteq.
Qed.

(** A record of the loop is made of records of the loop. *)
Lemma trace_prefix results results' :
  trace fields data ctx (results ++ results') → trace fields data ctx results.
Proof.
  induction results' as [|item results' IH] using rev_ind.
  - by rewrite app_nil_r.
  - rewrite app_assoc. intros H. apply IH. inversion H as [Hnil|? ? ? ? Htr ? ? ? ? Heq].
    + by destruct (results ++ results').
    + apply app_inj_tail in Heq as [<- _]. done.
Qed.

Lemma trace_last results name o :
  trace fields data ctx (results ++ [(name, o)]) →
  ∃ f value,
    (name, f) ∈ fields ∧ dict_get results name = None
    ∧ Forall (λ dep, has_Value results dep = true) (depends_on f)
    ∧ read_value data (accepted name f) None = Some value
    ∧ o = run_validators f [name] value ctx results.
Proof.
  intros H. inversion H as [Hnil|? ? f value Htr ? ? ? ? Heq].
  - by destruct results.
  - apply app_inj_tail in Heq as [<- Heq]. injection Heq as <- <-. by exists f, value.
Qed.
End Trace.

(** The scan appends the delayed fields that have become eligible. *)
Lemma rescan_filter delayed_eval results eval_queue :
  rescan delayed_eval results eval_queue
  = eval_queue
    ++ filter (λ item,
         dict_get results item.1 = None ∧ (item.1 ∉ eval_queue.*1)
         ∧ Forall (λ dep, has_Value results dep = true) (depends_on item.2))
       delayed_eval.
Proof.
  unfold rescan.
  assert (∀ x, x ∈ (list_to_set (eval_queue.*1) : gset string) ↔ x ∈ eval_queue.*1) as Hq
    by (intros x; apply elem_of_list_to_set).
  revert Hq. generalize (list_to_set (eval_queue.*1) : gset string). intros queued Hq.
  assert (∀ l q,
    foldl (λ queue item,
             if negb (dict_mem results item.1) && bool_decide (item.1 ∉ queued)
                && forallb (has_Value results) (depends_on item.2)
             then queue ++ [item] else queue) q l
    = q ++ filter (λ item,
         dict_get results item.1 = None ∧ (item.1 ∉ eval_queue.*1)
         ∧ Forall (λ dep, has_Value results dep = true) (depends_on item.2)) l) as Hfold.
  { induction l as [|item l IH]; intros q; simpl; [by rewrite app_nil_r|].
    rewrite IH. rewrite filter_cons.
    destruct (negb _ && _ && _) eqn:E.
    - apply andb_true_iff in E as [[E1 E2]%andb_true_iff E3].
      rewrite decide_True; [by rewrite <- app_assoc|].
      apply negb_true_iff in E1. apply bool_decide_eq_true in E2.
      split_and!.
      + destruct (dict_get results item.1) eqn:Eg; [|done].
        unfold dict_mem in E1. rewrite Eg in E1.
        by rewrite bool_decide_eq_false in E1; destruct E1.
      + by rewrite <- Hq.
      + apply Forall_forall. intros dep Hdep.
        rewrite forallb_forall in E3. by apply E3, list_elem_of_In.
    - rewrite decide_False; [done|]. intros (H1 & H2 & H3).
      apply not_true_iff_false in E. apply E.
      apply andb_true_iff. split; [apply andb_true_iff; split|].
      + apply negb_true_iff. unfold dict_mem. rewrite H1.
        apply bool_decide_eq_false. by intros [].
      + apply bool_decide_eq_true. by rewrite Hq.
      + apply forallb_forall. intros dep Hdep%list_elem_of_In.
        rewrite Forall_forall in H3. auto. }
  apply Hfold.
Qed.

Section Loop.
Context (fields : pydict Field) (data : input) (ctx : context).
Hypothesis fields_NoDup : NoDup (dict_keys fields).

Local Abbreviation delayed_eval :=
  (filter (λ item : string * Field, depends_on item.2 ≠ []) fields).

Lemma queue_ok_step results eval_queue name f o :
  queue_ok fields results (eval_queue ++ [(name, f)]) →
  queue_ok fields (results ++ [(name, o)])
    (rescan delayed_eval (results ++ [(name, o)]) eval_queue).
Proof.
  intros (Hnodup & Hqueued & Hcomplete).
  rewrite fmap_app in Hnodup. apply NoDup_app in Hnodup as (Hnodup & Hfresh & _).
  assert (name ∉ eval_queue.*1) as Hname.
  { intros Hin. apply (Hfresh _ Hin). simpl. left. }
  rewrite rescan_filter. split_and!.
  - rewrite fmap_app. apply NoDup_app. split_and!; [done| |].
    + intros x Hx ([n g] & -> & Hin)%list_elem_of_fmap.
      apply list_elem_of_filter in Hin as [(_ & Hout & _) _]. done.
    + eapply sublist_NoDup; [exact fields_NoDup|]. unfold dict_keys.
      apply fmap_sublist. etrans; apply sublist_filter.
  - intros n g [Hin|Hin]%elem_of_app.
    + destruct (Hqueued n g) as (Hf & Hnone & Hdeps).
      { apply elem_of_app. by left. }
      split_and!; [done| |].
      * rewrite dict_get_app, Hnone. simpl. rewrite decide_False; [done|].
        intros ->. apply Hname. by eapply elem_dict_keys.
      * eapply Forall_impl; [exact Hdeps|]. intros dep. apply has_Value_app.
    + apply list_elem_of_filter in Hin as [(Hnone & _ & Hdeps) Hin].
      apply list_elem_of_filter in Hin as [_ Hin]. done.
  - intros n g Hin Hdeps.
    destruct (decide (n ∈ dict_keys (results ++ [(name, o)]))) as [|Hnot]; [by left|].
    right. rewrite fmap_app, elem_of_app.
    destruct (decide (n ∈ eval_queue.*1)) as [|Hnq]; [by left|]. right.
    destruct (decide (depends_on g = [])) as [Hnil|Hcons].
    + destruct (Hcomplete n g Hin) as [Hr|Hq].
      { rewrite Hnil. apply Forall_nil_2. }
      * destruct Hnot. unfold dict_keys in *. rewrite fmap_app, elem_of_app. by left.
      * rewrite fmap_app, elem_of_app in Hq. destruct Hq as [?|Hq]; [done|].
        simpl in Hq. apply list_elem_of_singleton in Hq as ->.
        destruct Hnot. unfold dict_keys. rewrite fmap_app, elem_of_app. right. left.
    + apply list_elem_of_fmap. exists (n, g). split; [done|].
      apply list_elem_of_filter. split.
      * split_and!; [by apply dict_get_None|done|done].
      * by apply list_elem_of_filter.
Qed.

(** The loop ends with a record of its run in which every field with a
    [Value] for each of its dependencies has an outcome. *)
Lemma eval_loop_spec rounds results eval_queue :
  trace fields data ctx results →
  queue_ok fields results eval_queue →
  (length fields ≤ length results + rounds)%nat →
  ∃ results',
    eval_loop rounds data ctx delayed_eval eval_queue results = Some (Ok results')
    ∧ trace fields data ctx results'
    ∧ ∀ name f, (name, f) ∈ fields →
        Forall (λ dep, has_Value results' dep = true) (depends_on f) →
        name ∈ dict_keys results'.
Proof.
  revert results eval_queue.
  induction rounds as [|rounds IH]; intros results eval_queue Htrace Hq Hlen.
  - destruct (list_pop eval_queue) as [[init [name f]]|] eqn:Epop.
    + apply list_pop_Some in Epop as ->.
      destruct Hq as (_ & Hqueued & _).
      destruct (Hqueued name f) as (Hin & Hnone & Hdeps); [apply elem_of_app; right; left|].
      destruct (read_value_Some data name f) as [value Hvalue].
      pose proof (trace_step _ _ _ _ _ _ _ Htrace Hin Hnone Hdeps Hvalue) as Htrace'.
      apply trace_length in Htrace'.
      rewrite length_app in Htrace'. simpl in Htrace'. lia.
    + apply list_pop_None in Epop as ->. simpl.
      exists results. split_and!; [done|done|].
      intros name f Hin Hdeps. destruct Hq as (_ & _ & Hc).
      destruct (Hc name f Hin Hdeps) as [?|[]%elem_of_nil]; done.
  - destruct (list_pop eval_queue) as [[init [name f]]|] eqn:Epop.
    + pose proof Epop as ->%list_pop_Some.
      cbn [eval_loop]. rewrite Epop.
      pose proof Hq as (_ & Hqueued & _).
      destruct (Hqueued name f) as (Hin & Hnone & Hdeps); [apply elem_of_app; right; left|].
      destruct (read_value_Some data name f) as [value Hvalue]. rewrite Hvalue.
      rewrite dict_set_fresh by done.
      apply IH.
      * by eapply trace_step.
      * by apply (queue_ok_step _ _ _ f).
      * rewrite length_app. simpl. lia.
    + pose proof Epop as ->%list_pop_None. cbn [eval_loop]. simpl.
      exists results. split_and!; [done|done|].
      intros name f Hin Hdeps. destruct Hq as (_ & _ & Hc).
      destruct (Hc name f Hin Hdeps) as [?|[]%elem_of_nil]; done.
Qed.
End Loop.

Lemma filter_split_length {A} (P : A → Prop) `{!∀ x, Decision (P x)} (l : list A) :
  length l = (length (filter P l) + length (filter (λ x, ¬ P x) l))%nat.
Proof.
  induction l as [|x l IH]; [done|]. rewrite !filter_cons.
  destruct (decide (P x)).
  - rewrite decide_False by tauto. simpl. lia.
  - rewrite decide_True by done. simpl. lia.
Qed.

(** The loop of [_clean] ends, without a failed assertion, with a record
    of its run in which every field with a [Value] for each of its
    dependencies has an outcome. *)
Lemma evaluate_spec cls data ctx :
  ∃ results,
    evaluate cls data ctx = Some (Ok results)
    ∧ trace (get_fields cls) data ctx results
    ∧ ∀ name f, (name, f) ∈ get_fields cls →
        Forall (λ dep, has_Value results dep = true) (depends_on f) →
        name ∈ dict_keys results.
Proof.
  unfold evaluate.
  rewrite decide_True
    by apply (filter_split_length (λ item : string * Field, depends_on item.2 = [])).
  apply eval_loop_spec.
  - apply get_fields_NoDup.
  - apply trace_start.
  - split_and!.
    + eapply sublist_NoDup; [apply get_fields_NoDup|].
      apply fmap_sublist, sublist_filter.
    + intros name f [Hnil Hin]%list_elem_of_filter. simpl in Hnil.
      split_and!; [done|done|]. rewrite Hnil. apply Forall_nil_2.
    + intros name f Hin Hdeps. right.
      apply list_elem_of_fmap. exists (name, f). split; [done|].
      apply list_elem_of_filter. split; [|done]. simpl.
      destruct (depends_on f) as [|dep deps]; [done|].
      by apply Forall_cons in Hdeps as [? _].
  - simpl. lia.
Qed.

Section TraceFacts.
Context (fields : pydict Field) (data : input) (ctx : context).
Hypothesis fields_NoDup : NoDup (dict_keys fields).

(** What the record says of each of its entries. *)
Lemma trace_entry pre name o post :
  trace fields data ctx (pre ++ (name, o) :: post) →
  ∃ f value,
    (name, f) ∈ fields ∧ dict_get pre name = None
    ∧ Forall (λ dep, has_Value pre dep = true) (depends_on f)
    ∧ read_value data (accepted name f) None = Some value
    ∧ o = run_validators f [name] value ctx pre.
Proof.
  intros H. apply (trace_last fields data ctx).
  apply (trace_prefix _ _ _ _ post). by rewrite <- app_assoc.
Qed.

(** An evaluated field has a [Value] for each of its dependencies. *)
Lemma trace_dependencies results name f o :
  trace fields data ctx results →
  (name, o) ∈ results → (name, f) ∈ fields →
  Forall (λ dep, has_Value results dep = true) (depends_on f).
Proof.
  intros Htrace (pre & post & ->)%list_elem_of_split Hin.
  destruct (trace_entry _ _ _ _ Htrace) as (f' & value & Hin' & _ & Hdeps & _).
  assert (f' = f) as ->.
  { apply (elem_dict_get _ _ _ fields_NoDup) in Hin, Hin'. congruence. }
  eapply Forall_impl; [exact Hdeps|]. intros dep. apply has_Value_app.
Qed.

(** When every recorded outcome is a [Value], every field that can be
    resolved has been evaluated. *)
Lemma trace_grounded results name :
  (∀ n f, (n, f) ∈ fields →
     Forall (λ dep, has_Value results dep = true) (depends_on f) →
     n ∈ dict_keys results) →
  (∀ n o, (n, o) ∈ results → is_Value o = true) →
  grounded fields name → has_Value results name = true.
Proof.
  intros Hcomplete Hvalues. induction 1 as [name f Hin _ IH].
  assert (name ∈ dict_keys results) as [o Ho]%dict_keys_elem.
  { apply (Hcomplete name f Hin). by apply Forall_forall. }
  unfold has_Value. rewrite Ho. eapply Hvalues, dict_get_Some_elem, Ho.
Qed.
End TraceFacts.

(** ** The result of [_clean] *)

Lemma flat_errors_cons_entry name o results :
  flat_errors ((name, o) :: results)
  = (if is_Value o then [] else flatten o) ++ flat_errors results.
Proof.
  unfold flat_errors. change (((name, o) :: results).*2) with (o :: results.*2).
  rewrite filter_cons.
  destruct (is_Value o); [by rewrite decide_False|by rewrite decide_True].
Qed.

Lemma elem_flat_errors results e :
  e ∈ flat_errors results ↔
  ∃ name o, (name, o) ∈ results ∧ is_Value o = false ∧ e ∈ flatten o.
Proof.
  induction results as [|[n o'] results IH].
  - split; [by intros ?%elem_of_nil|]. by intros (? & ? & ?%elem_of_nil & _).
  - rewrite flat_errors_cons_entry, elem_of_app, IH. split.
    + intros [He|(name & o & Hin & Hfail & He)].
      * destruct (is_Value o') eqn:E; [by apply elem_of_nil in He|].
        exists n, o'. split_and!; [left|done|done].
      * exists name, o. split_and!; [by right|done|done].
    + intros (name & o & [[= -> ->]|Hin]%elem_of_cons & Hfail & He).
      * left. by rewrite Hfail.
      * right. by exists name, o.
Qed.


Lemma flat_errors_cons results name o :
  (name, o) ∈ results → is_Value o = false → flatten o ≠ [] →
  ∃ e errors, flat_errors results = e :: errors.
Proof.
  intros Hin Hfail Hne. destruct (flatten o) as [|e l] eqn:E; [done|].
  assert (e ∈ flat_errors results) as He.
  { apply elem_flat_errors. exists name, o. split_and!; [done|done|]. rewrite E. left. }
  destruct (flat_errors results); [by apply elem_of_nil in He|eauto].
Qed.

(** The keyword arguments of the instance: the payloads, in the order of
    the record. *)
Lemma kwargs_Some results :
  (∀ name o, (name, o) ∈ results → is_Value o = true) →
  ∃ kwargs,
    mapM (λ kv, pair kv.1 <$> value_of kv.2) results = Some kwargs
    ∧ kwargs.*1 = results.*1
    ∧ (Value <$> kwargs.*2) = results.*2.
Proof.
  induction results as [|[n o] results IH]; intros Hall.
  - by exists [].
  - destruct IH as (kwargs & Hk & Hk1 & Hk2).
    { intros name o' Hin. apply (Hall name). by right. }
    assert (is_Value o = true) as Ho by (apply (Hall n); left).
    destruct o as [v| |]; try done.
    exists ((n, v) :: kwargs). split_and!.
    + cbn. rewrite Hk. done.
    + rewrite !fmap_cons. by rewrite Hk1.
    + rewrite !fmap_cons. by rewrite Hk2.
Qed.

Lemma kwargs_Values results kwargs :
  mapM (λ kv, pair kv.1 <$> value_of kv.2) results = Some kwargs →
  ∀ name o, (name, o) ∈ results → is_Value o = true.
Proof.
  revert kwargs. induction results as [|[n o] results IH]; intros kwargs Hk name o' Hin.
  - by apply elem_of_nil in Hin.
  - cbn in Hk. destruct o as [v| |]; try done. simpl in Hk.
    destruct (mapM _ results) as [kw|] eqn:E; [|done].
    apply elem_of_cons in Hin as [[= -> ->]|Hin]; [done|]. by eapply IH.
Qed.

Lemma kwargs_get results kwargs name :
  kwargs.*1 = results.*1 → (Value <$> kwargs.*2) = results.*2 →
  Value <$> dict_get kwargs name = dict_get results name.
Proof.
  revert kwargs. induction results as [|[n o] results IH]; intros [|[k v] kwargs]; try done.
  simpl. intros [= -> H1] [= <- H2]. case_decide; [done|]. by apply IH.
Qed.

(** [_new_init] sets the keyword arguments that name fields, as they come. *)
Lemma new_init_attrs cls kwargs :
  NoDup (kwargs.*1) → kwargs.*1 ⊆ dict_keys (get_fields cls) →
  "self" ∉ kwargs.*1 →
  _new_init cls kwargs = Ok (mkInstance cls kwargs).
Proof.
  intros Hnodup Hsub Hself. unfold _new_init.
  destruct (dict_mem kwargs "self") eqn:Emem.
  { by apply dict_mem_keys in Emem. }
  do 2 f_equal.
  replace (filter _ kwargs) with kwargs.
  - rewrite (dict_of_items_id kwargs) by done. by apply (dict_of_items_id kwargs).
  - symmetry. clear Hnodup Hself Emem. induction kwargs as [|[k v] kwargs IH]; [done|].
    rewrite filter_cons. rewrite decide_True.
    + f_equal. apply IH. intros x Hx. apply Hsub. by right.
    + simpl. apply Is_true_true, dict_mem_keys, Hsub. left.
Qed.



Lemma aggregate_inv cls results :
  (∃ e errors, flat_errors results = e :: errors
     ∧ aggregate cls results = Ok (Invalid (mkValidationError (flat_errors results))))
  ∨ (flat_errors results = []
     ∧ ∃ kwargs, mapM (λ kv, pair kv.1 <$> value_of kv.2) results = Some kwargs
        ∧ ((∃ self, _new_init cls kwargs = Ok self
                    ∧ aggregate cls results = Ok (Instance self))
           ∨ (∃ e, aggregate cls results = Raise e)))
  ∨ (flat_errors results = [] ∧ aggregate cls results = Raise (AttributeError "value")).
Proof.
  unfold aggregate. fold (flat_errors results).
  destruct (flat_errors results) as [|e errors]; [|left; eauto].
  right. destruct (mapM _ results) as [kwargs|]; [left|right]; [|done].
  split; [done|]. exists kwargs. split; [done|].
  destruct (_new_init cls kwargs) as [self|e]; [left|right]; eauto.
Qed.

(** The instance that [_clean] returns holds the payloads of the recorded
    [Value]s, and every recorded outcome is one. *)
Lemma aggregate_Instance_inv cls data ctx results self :
  trace (get_fields cls) data ctx results →
  aggregate cls results = Ok (Instance self) →
  (∀ name o, (name, o) ∈ results → is_Value o = true)
  ∧ ∃ kwargs,
      self = mkInstance cls kwargs
      ∧ kwargs.*1 = results.*1
      ∧ (Value <$> kwargs.*2) = results.*2.
Proof.
  intros Htrace Hagg.
  destruct (aggregate_inv cls results)
    as [(e & l & _ & H)|[(_ & kw & Hkw & [(self' & Hinit & H)|[e H]])|(_ & H)]];
    rewrite H in Hagg; try done.
  injection Hagg as ->.
  pose proof (kwargs_Values _ _ Hkw) as Hall. split; [done|].
  destruct (kwargs_Some results Hall) as (kwargs & Hk & Hk1 & Hk2).
  assert (kwargs = kw) as -> by congruence.
  exists kw. split; [|done].
  pose proof (trace_keys _ _ _ _ Htrace) as [Hnodup Hsub].
  assert ("self" ∉ kw.*1) as Hself.
  { intros Hin%dict_mem_keys. unfold _new_init in Hinit. by rewrite Hin in Hinit. }
  rewrite new_init_attrs in Hinit; [congruence| | |done]; unfold dict_keys in *; by rewrite Hk1.
Qed.

Lemma clean_decorated sch data ctx :
  dict_get (cls_dict sch) "__clean" = Some AClean →
  clean sch data ctx = _clean sch data ctx.
Proof. unfold clean. by intros ->. Qed.

Lemma not_all_Values results :
  (∃ name o, (name, o) ∈ results ∧ is_Value o = false)
  ∨ (∀ name o, (name, o) ∈ results → is_Value o = true).
Proof.
  induction results as [|[n o] results [(name & o' & Hin & Hf)|IH]].
  - right. by intros ? ? ?%elem_of_nil.
  - left. exists name, o'. split; [by right|done].
  - destruct (is_Value o) eqn:E.
    + right. intros name o' [[= -> ->]|Hin]%elem_of_cons; eauto.
    + left. exists n, o. split; [left|done].
Qed.




Lemma clean_Invalid_errors cls data ctx results err :
  evaluate cls data ctx = Some (Ok results) →
  _clean cls data ctx = Some (Ok (Invalid err)) →
  errors err = flat_errors results.
Proof.
  unfold _clean. intros -> [= Hagg].
  destruct (aggregate_inv cls results)
    as [(e & l & _ & H)|[(_ & kw & _ & [(self & _ & H)|[e H]])|(_ & H)]];
    rewrite H in Hagg; try done.
  by injection Hagg as <-.
Qed.

(** C2. In one run of the loop a field is evaluated at most once and only
    after each of its dependencies has produced a [Value]; a field with a
    dependency that produced no [Value] is never evaluated, and every error
    of the returned [ValidationError] comes from an evaluated field, all of
    whose dependencies produced a [Value]. *)
Theorem dependent_runs_after_its_dependencies cls data ctx :
  ∃ results,
    evaluate cls data ctx = Some (Ok results)
    ∧ NoDup (dict_keys results)
    ∧ (∀ pre name o post f dep,
         results = pre ++ (name, o) :: post →
         (name, f) ∈ get_fields cls → dep ∈ depends_on f →
         ∃ v, dict_get pre dep = Some (Value v))
    ∧ (∀ name f dep,
         (name, f) ∈ get_fields cls → dep ∈ depends_on f →
         (∀ v, dict_get results dep ≠ Some (Value v)) →
         dict_get results name = None)
    ∧ (∀ err e,
         _clean cls data ctx = Some (Ok (Invalid err)) → e ∈ errors err →
         ∃ name f o,
           (name, f) ∈ get_fields cls ∧ (name, o) ∈ results ∧ e ∈ flatten o
           ∧ ∀ dep, dep ∈ depends_on f → ∃ v, dict_get results dep = Some (Value v)).
Proof.
  destruct (evaluate_spec cls data ctx) as (results & Hev & Htrace & _).
  pose proof (get_fields_NoDup cls) as Hfields.
  exists results. split_and!; [done|by apply (trace_keys _ _ _ _ Htrace)| | |].
  - intros pre name o post f dep -> Hin Hdep.
    destruct (trace_entry _ _ _ _ _ _ _ Htrace) as (f' & value & Hin' & _ & Hdeps & _).
    assert (f' = f) as -> by (eapply get_fields_unique; eauto).
    rewrite Forall_forall in Hdeps. by apply has_Value_inv, Hdeps.
  - intros name f dep Hin Hdep Hnone.
    destruct (dict_get results name) as [o|] eqn:Ho; [|done]. exfalso.
    apply dict_get_Some_elem in Ho.
    pose proof (trace_dependencies _ _ _ Hfields _ _ _ _ Htrace Ho Hin) as Hdeps.
    rewrite Forall_forall in Hdeps.
    destruct (has_Value_inv _ _ (Hdeps dep Hdep)) as [v Hv]. by apply (Hnone v).
  - intros err e Herr He. rewrite (clean_Invalid_errors _ _ _ _ _ Hev Herr) in He.
    apply elem_flat_errors in He as (name & o & Ho & _ & He).
    assert (name ∈ dict_keys (get_fields cls)) as [f Hf]%dict_keys_elem.
    { apply trace_keys in Htrace as [_ Hsub]. by eapply Hsub, elem_dict_keys. }
    apply dict_get_Some_elem in Hf.
    exists name, f, o. split_and!; [done|done|done|].
    intros dep Hdep.
    pose proof (trace_dependencies _ _ _ Hfields _ _ _ _ Htrace Ho Hf) as Hdeps.
    rewrite Forall_forall in Hdeps. by apply has_Value_inv, Hdeps.
Qed.

(** C3, as amended. After the loop every field of the schema has at most
    one recorded outcome, and has one exactly when each of its dependencies
    has a recorded [Value]: a field without dependencies always has one, a
    field with a dependency that failed or never ran has none. When every
    recorded outcome is a [Value] and the dependencies resolve, every field
    has exactly one. *)
Theorem outcome_iff_dependencies_have_Values cls data ctx :
  ∃ results,
    evaluate cls data ctx = Some (Ok results)
    ∧ NoDup (dict_keys results)
    ∧ dict_keys results ⊆ dict_keys (get_fields cls)
    ∧ (∀ name f, (name, f) ∈ get_fields cls →
         name ∈ dict_keys results
         ↔ Forall (λ dep, has_Value results dep = true) (depends_on f))
    ∧ (∀ name f, (name, f) ∈ get_fields cls → depends_on f = [] →
         ∃ o, (name, o) ∈ results ∧ ∀ o', (name, o') ∈ results → o' = o)
    ∧ ((∀ name o, (name, o) ∈ results → is_Value o = true) →
       _check_for_dependency_loops cls = Some (Ok ()) →
       every_field_has_one_outcome cls results).
Proof.
  destruct (evaluate_spec cls data ctx) as (results & Hev & Htrace & Hcomplete).
  pose proof (get_fields_NoDup cls) as Hfields.
  pose proof (trace_keys _ _ _ _ Htrace) as [Hnodup Hsub].
  assert (∀ name, name ∈ dict_keys results →
            ∃ o, (name, o) ∈ results ∧ ∀ o', (name, o') ∈ results → o' = o) as Hone.
  { intros name [o Ho]%dict_keys_elem. exists o. split; [by apply dict_get_Some_elem|].
    intros o' Ho'%(elem_dict_get _ _ _ Hnodup). congruence. }
  exists results. split_and!; [done|done|done| | |].
  - intros name f Hin. split; [|by apply Hcomplete].
    intros [o Ho%dict_get_Some_elem]%dict_keys_elem.
    by eapply trace_dependencies.
  - intros name f Hin Hnil. apply Hone, (Hcomplete name f Hin).
    rewrite Hnil. apply Forall_nil_2.
  - intros Hall Hcheck name f Hin. apply Hone.
    assert (has_Value results name = true) as [v Hv]%has_Value_inv.
    { eapply trace_grounded; [exact Hcomplete|exact Hall|].
      apply check_Ok_grounded; [done|]. by eapply elem_dict_keys. }
    by eapply elem_dict_keys, dict_get_Some_elem.
Qed.

(** C3, as stated, fails: [b] depends on [a], [a] is rejected, and [b] has
    no outcome after the loop. *)
Lemma dependent_field_has_no_outcome :
  let sch := Examples.decorated Examples.Dependent in
  ∃ results,
    evaluate sch (DictData [("a", VInt 1); ("b", VInt 2)]) None = Some (Ok results)
    ∧ ¬ every_field_has_one_outcome sch results.
Proof.
  eexists. split; [reflexivity|]. intros H.
  destruct (H "b" (make_field [Examples.intfield] [] ["a"] Required None id))
    as (o & Ho & _).
  - right. left.
  - apply list_elem_of_singleton in Ho. discriminate Ho.
Qed.

(** ** Reading the raw value *)

Lemma getter_same x y key default :
  same_data x y → getter x key default = getter y key default.
Proof.
  destruct x as [d1|a1], y as [d2|a2]; simpl; try done.
  intros H. by rewrite (H key).
Qed.

Lemma read_value_same x y keys value :
  same_data x y → read_value x keys value = read_value y keys value.
Proof.
  intros H. revert value. induction keys as [|key keys IH]; intros value; simpl; [done|].
  rewrite (getter_same x y key VOmitted H). by rewrite IH.
Qed.

Lemma eval_loop_same x y rounds ctx delayed_eval eval_queue results :
  same_data x y →
  eval_loop rounds x ctx delayed_eval eval_queue results
  = eval_loop rounds y ctx delayed_eval eval_queue results.
Proof.
  intros H. revert eval_queue results.
  induction rounds as [|rounds IH]; intros eval_queue results; simpl; [done|].
  destruct (list_pop eval_queue) as [[queue [name f]]|]; [|done].
  rewrite (read_value_same x y _ _ H).
  destruct (read_value y _ _); [apply IH|done].
Qed.

(** C9. Two calls of [clean] on one schema with equal input data ([==] on
    dictionaries does not look at the order of the keys) and the same
    context return the same result: the same instance, or the same errors in
    the same order. *)
Theorem clean_deterministic sch x y ctx :
  same_data x y → clean sch x ctx = clean sch y ctx.
Proof.
  intros H. unfold clean, _clean, evaluate.
  by rewrite (eval_loop_same x y _ _ _ _ _ H).
Qed.

Lemma clean_deterministic_witness :
  let sch := Examples.decorated Examples.ExampleSchema in
  let x := DictData [("myint", VInt 100); ("mylowint", VInt 10)] in
  let y := DictData [("mylowint", VInt 10); ("myint", VInt 100)] in
  same_data x y ∧ clean sch x None = clean sch y None.
Proof.
  assert (same_data (DictData [("myint", VInt 100); ("mylowint", VInt 10)])
            (DictData [("mylowint", VInt 10); ("myint", VInt 100)])) as H.
  { intros k. simpl. repeat case_decide; congruence. }
  split; [exact H|]. apply clean_deterministic, H.
Defined.

(** With no [omitted] among its values, the loop over the accepted keys
    finds what the spec describes. *)
Lemma read_value_first_present d keys value :
  forallb (λ kv, negb (is_omitted kv.2)) d = true →
  read_value (DictData d) keys value
  = match keys with [] => value | _ => Some (first_present d keys) end.
Proof.
  intros Hd.
  assert (∀ k v, dict_get d k = Some v → is_omitted v = false) as Hget.
  { intros k v Hin%dict_get_Some_elem. rewrite forallb_forall in Hd.
    apply list_elem_of_In, Hd in Hin. by apply negb_true_iff in Hin. }
  revert value. induction keys as [|key keys IH]; intros value; [done|].
  simpl. destruct (dict_get d key) as [v|] eqn:E; simpl.
  - by rewrite (Hget _ _ E).
  - rewrite IH. by destruct keys.
Qed.

(** The loop over the accepted keys, for a dictionary. *)
Lemma read_value_first_not_omitted d keys value :
  read_value (DictData d) keys value
  = match keys with [] => value | _ => Some (first_not_omitted d keys) end.
Proof.
  revert value. induction keys as [|key keys IH]; intros value; [done|].
  simpl. destruct (dict_get d key) as [v|] eqn:E; simpl.
  - destruct (is_omitted v) eqn:Ev; [|done].
    assert (v = VOmitted) as -> by by destruct v.
    rewrite IH. by destruct keys.
  - rewrite IH. by destruct keys.
Qed.

(** C6, as amended. On an input dictionary the raw value of a field is the
    value of the first of its accepted keys, in declared order, that is
    present with a value other than [omitted], and [omitted] when there is
    none. Every field whose dependencies have a [Value] is evaluated, and its
    executor is handed that raw value; so a field without dependencies that
    accepts an alternate key is evaluated on the alternate key's value when
    the key of its own name is absent. *)
Theorem raw_value_is_first_accepted_key cls d ctx :
  (∀ name f,
     read_value (DictData d) (accepted name f) None
     = Some (first_not_omitted d (accepted name f)))
  ∧ ∃ results,
      evaluate cls (DictData d) ctx = Some (Ok results)
      ∧ (∀ pre name o post,
           results = pre ++ (name, o) :: post →
           ∃ f, (name, f) ∈ get_fields cls
                ∧ o = run_validators f [name]
                        (first_not_omitted d (accepted name f)) ctx pre)
      ∧ (∀ name f,
           (name, f) ∈ get_fields cls →
           Forall (λ dep, has_Value results dep = true) (depends_on f) →
           ∃ pre post,
             results
             = pre ++ (name, run_validators f [name]
                               (first_not_omitted d (accepted name f)) ctx pre) :: post)
      ∧ (∀ name f own alt v,
           (name, f) ∈ get_fields cls → depends_on f = [] →
           accepts f = [own; alt] →
           dict_get d own = None → dict_get d alt = Some v → is_omitted v = false →
           ∃ pre post,
             results = pre ++ (name, run_validators f [name] v ctx pre) :: post).
Proof.
  assert (∀ name f,
     read_value (DictData d) (accepted name f) None
     = Some (first_not_omitted d (accepted name f))) as Hread.
  { intros name f. rewrite read_value_first_not_omitted.
    by destruct (accepted_cons name f) as (key & keys & ->). }
  split; [done|].
  destruct (evaluate_spec cls (DictData d) ctx) as (results & Hev & Htrace & Hcomplete).
  assert (∀ pre name o post,
            results = pre ++ (name, o) :: post →
            ∃ f, (name, f) ∈ get_fields cls
                 ∧ o = run_validators f [name]
                         (first_not_omitted d (accepted name f)) ctx pre) as Hentry.
  { intros pre name o post ->.
    destruct (trace_entry _ _ _ _ _ _ _ Htrace) as (f & value & Hin & _ & _ & Hvalue & ->).
    exists f. split; [done|]. rewrite Hread in Hvalue. by injection Hvalue as <-. }
  assert (∀ name f,
            (name, f) ∈ get_fields cls →
            Forall (λ dep, has_Value results dep = true) (depends_on f) →
            ∃ pre post,
              results
              = pre ++ (name, run_validators f [name]
                                (first_not_omitted d (accepted name f)) ctx pre) :: post)
    as Hevaluated.
  { intros name f Hin Hdeps.
    pose proof (Hcomplete name f Hin Hdeps) as [o Ho%dict_get_Some_elem]%dict_keys_elem.
    apply list_elem_of_split in Ho as (pre & post & Hsplit).
    destruct (Hentry _ _ _ _ Hsplit) as (f' & Hin' & ->).
    rewrite (get_fields_unique _ _ _ _ Hin' Hin) in Hsplit. by exists pre, post. }
  exists results. split_and!; [done|done|done|].
  intros name f own alt v Hin Hnodeps Hacc Hown Halt Hv.
  destruct (Hevaluated name f Hin) as (pre & post & Hsplit).
  { rewrite Hnodeps. apply Forall_nil_2. }
  exists pre, post. rewrite Hsplit at 1. do 3 f_equal.
  unfold accepted. rewrite Hacc. simpl. by rewrite Hown, Halt, Hv.
Qed.

Lemma raw_value_is_first_accepted_key_witness :
  let sch := Examples.decorated Examples.ExampleSchema in
  let d := [("deprecated_int", VInt 100); ("mylowint", VInt 2)] in
  (∃ results,
     evaluate sch (DictData d) None = Some (Ok results)
     ∧ dict_get results "myint" = Some (Value (VInt 100)))
  ∧ clean sch (DictData d) None
    = Some (Ok (Instance (mkInstance sch [("mylowint", VInt 2); ("myint", VInt 100)]))).
Proof.
  split; [|reflexivity].
  destruct (raw_value_is_first_accepted_key
              (Examples.decorated Examples.ExampleSchema)
              [("deprecated_int", VInt 100); ("mylowint", VInt 2)] None)
    as (_ & results & Hev & _ & _ & Halt).
  exists results. split; [exact Hev|].
  destruct (Halt "myint"
              (make_field [Examples.intfield] ["myint"; "deprecated_int"] [] Required None id)
              "myint" "deprecated_int" (VInt 100))
    as (pre & post & Hsplit); [left|reflexivity..|].
  assert (results = [("mylowint", Value (VInt 2)); ("myint", Value (VInt 100))]) as ->.
  { vm_compute in Hev. by injection Hev as <-. }
  reflexivity.
Defined.

(** C6, as stated, fails. The key [myint] is present in the input, with
    the [omitted] sentinel as its value: the claim has the field read that
    value, the loop goes on to the alternate key and [clean] returns an
    instance with [myint] read from [deprecated_int]. And on an object that
    is no dictionary the attribute [myint] is not read at all (the missing
    [return] of [getter]). *)
Lemma first_present_key_is_not_always_read :
  let sch := Examples.decorated Corners.Aliased in
  let d := [("myint", VOmitted); ("deprecated_int", VInt 100)] in
  dict_get d "myint" = Some VOmitted
  ∧ first_present d ["myint"; "deprecated_int"] = VOmitted
  ∧ clean sch (DictData d) None
    = Some (Ok (Instance (mkInstance sch [("myint", VInt 100)])))
  ∧ clean sch (ObjData [("myint", VInt 7)]) None
    = Some (Ok (Instance (mkInstance sch [("myint", VNone)]))).
Proof. split_and!; reflexivity. Qed.

(** ** Serialisation *)

Lemma dict_get_fmap_key {V W} (h : string → V → W) (d : pydict V) k :
  dict_get ((λ item, (item.1, h item.1 item.2)) <$> d) k = h k <$> dict_get d k.
Proof.
  induction d as [|[k0 v0] d IH]; simpl; [done|]. case_decide; by subst.
Qed.

Lemma serialize_plain self :
  plain_output (inst_class self) →
  _serialize self
  = (λ item, (item.1, getattr self item.1)) <$> get_fields (inst_class self).
Proof.
  intros Hplain. unfold _serialize.
  pose proof (get_fields_NoDup (inst_class self)) as Hnodup.
  unfold plain_output in Hplain. revert Hplain Hnodup.
  generalize (get_fields (inst_class self)). intros fields Hplain Hnodup.
  replace ((λ item, (output_key item.1 item.2, serialize_func item.2 (getattr self item.1)))
             <$> fields)
    with ((λ item : string * Field, (item.1, getattr self item.1)) <$> fields).
  - apply dict_of_items_id. unfold dict_keys in *. by rewrite <- list_fmap_compose.
  - apply Forall_fmap_ext. eapply Forall_impl; [exact Hplain|].
    intros [name f] [Hkey Hid]; simpl in *. by rewrite Hkey, Hid.
Qed.

(** C7, as amended. For a schema without renames and with identity output
    transforms, and an input dictionary whose keys are field names, on which
    every field validates to the raw value stored under its own name,
    [serialize(clean(schema, data))] equals [data]. *)
Theorem round_trip_of_own_keys sch d ctx self :
  dict_get (cls_dict sch) "__clean" = Some AClean →
  dict_get (cls_dict sch) "__serialize" = Some ASerialize →
  _check_for_dependency_loops sch = Some (Ok ()) →
  plain_output sch →
  dict_keys d ⊆ dict_keys (get_fields sch) →
  clean sch (DictData d) ctx = Some (Ok (Instance self)) →
  Forall (λ kv, dict_get d kv.1 = Some kv.2) (inst_attrs self) →
  round_trips sch d ctx.
Proof.
  intros Hclean Hser Hcheck Hplain Hkeys Hself Hraw.
  exists self, (_serialize self). split; [done|].
  rewrite (clean_decorated _ _ _ Hclean) in Hself. unfold _clean in Hself.
  destruct (evaluate_spec sch (DictData d) ctx) as (results & Hev & Htrace & Hcomplete).
  rewrite Hev in Hself. injection Hself as Hagg.
  destruct (aggregate_Instance_inv sch _ ctx results self Htrace Hagg)
    as (Hall & kwargs & -> & Hk1 & Hk2).
  simpl in *.
  split; [unfold serialize; simpl; by rewrite Hser|].
  rewrite serialize_plain by done. simpl.
  intros k. rewrite (dict_get_fmap_key (λ name _, getattr (mkInstance sch kwargs) name)).
  destruct (dict_get (get_fields sch) k) as [f|] eqn:Ef; simpl.
  - assert (has_Value results k = true) as [v Hv]%has_Value_inv.
    { eapply trace_grounded; [exact Hcomplete|exact Hall|].
      apply check_Ok_grounded; [done|]. by eapply elem_dict_keys, dict_get_Some_elem. }
    pose proof (kwargs_get results kwargs k Hk1 Hk2) as Hget. rewrite Hv in Hget.
    destruct (dict_get kwargs k) as [v'|] eqn:Ek; simpl in Hget; [|done].
    injection Hget as ->. unfold getattr. simpl. rewrite Ek. simpl.
    rewrite Forall_forall in Hraw. symmetry.
    apply (Hraw (k, v)). by apply dict_get_Some_elem.
  - symmetry. apply dict_get_None. intros Hk%Hkeys. by apply dict_get_None in Ef.
Qed.

Lemma round_trip_of_own_keys_witness :
  let sch := Examples.decorated Examples.ExampleSchema in
  let d := [("myint", VInt 100); ("mylowint", VInt 2)] in
  let self := mkInstance sch [("mylowint", VInt 2); ("myint", VInt 100)] in
  dict_get (cls_dict sch) "__clean" = Some AClean
  ∧ dict_get (cls_dict sch) "__serialize" = Some ASerialize
  ∧ _check_for_dependency_loops sch = Some (Ok ())
  ∧ plain_output sch
  ∧ dict_keys d ⊆ dict_keys (get_fields sch)
  ∧ clean sch (DictData d) None = Some (Ok (Instance self))
  ∧ Forall (λ kv, dict_get d kv.1 = Some kv.2) (inst_attrs self)
  ∧ round_trips sch d None.
Proof.
  assert (plain_output (Examples.decorated Examples.ExampleSchema)) as Hplain.
  { repeat constructor. }
  assert (dict_keys [("myint", VInt 100); ("mylowint", VInt 2)]
            ⊆ dict_keys (get_fields (Examples.decorated Examples.ExampleSchema))) as Hkeys.
  { intros k Hk. exact Hk. }
  assert (Forall (λ kv, dict_get [("myint", VInt 100); ("mylowint", VInt 2)] kv.1 = Some kv.2)
            [("mylowint", VInt 2); ("myint", VInt 100)]) as Hraw.
  { repeat constructor. }
  split_and!; [reflexivity|reflexivity|reflexivity|exact Hplain|exact Hkeys|reflexivity|exact Hraw|].
  exact (round_trip_of_own_keys
           (Examples.decorated Examples.ExampleSchema)
           [("myint", VInt 100); ("mylowint", VInt 2)] None
           (mkInstance (Examples.decorated Examples.ExampleSchema)
              [("mylowint", VInt 2); ("myint", VInt 100)])
           eq_refl eq_refl eq_refl Hplain Hkeys eq_refl Hraw).
Defined.

(** C7, as stated, fails: [myint] is read from its alternate key
    [deprecated_int] and serialised under its own name. *)
Lemma round_trip_fails_for_alternate_key :
  let sch := Examples.decorated Examples.ExampleSchema in
  let d := [("deprecated_int", VInt 100); ("mylowint", VInt 2)] in
  plain_output sch
  ∧ (∃ self, clean sch (DictData d) None = Some (Ok (Instance self)))
  ∧ ¬ round_trips sch d None.
Proof.
  split_and!.
  - repeat constructor.
  - eexists. reflexivity.
  - intros (self & out & Hself & Hout & Heq).
    vm_compute in Hself. injection Hself as <-.
    vm_compute in Hout. injection Hout as <-.
    specialize (Heq "deprecated_int"). vm_compute in Heq. discriminate Heq.
Qed.

(** ** The decorator *)

(** The decorator returns the class, with [__clean] and [__serialize] set,
    only when the check passes; it raises what the definition of the fields
    or the check raises. *)
Lemma schema_cases FIELD_TYPE_MAP cls autodef :
  match define_fields FIELD_TYPE_MAP cls autodef with
  | Raise e => schema FIELD_TYPE_MAP cls autodef = Some (Raise e)
  | Ok cls' =>
      match _check_for_dependency_loops cls' with
      | Some (Ok _) =>
          ∃ sch, schema FIELD_TYPE_MAP cls autodef = Some (Ok sch)
                 ∧ dict_get (cls_dict sch) "__clean" = Some AClean
                 ∧ dict_get (cls_dict sch) "__serialize" = Some ASerialize
      | Some (Raise e) => schema FIELD_TYPE_MAP cls autodef = Some (Raise e)
      | None => False
      end
  end.
Proof.
  unfold schema. destruct (define_fields _ _ _) as [cls'|e]; [|done].
  destruct (check_total cls') as [[[]|e] Hr]; rewrite Hr; [|done].
  eexists. split; [done|]. unfold setattr. simpl.
  rewrite !dict_get_set. by repeat case_decide.
Qed.

(** C4. Defining a schema whose fields have a circular dependency fails at
    definition time with the dependency-resolution error: the decorator
    raises, it returns no class, so [__clean] is never set and no [clean]
    call can be made. The check reads the declared dependencies only. *)
Theorem circular_schema_is_rejected FIELD_TYPE_MAP cls autodef cls' :
  define_fields FIELD_TYPE_MAP cls autodef = Ok cls' →
  circular cls' →
  schema FIELD_TYPE_MAP cls autodef
  = Some (Raise (ValueError "Field dependencies could not be resolved."))
  ∧ (∀ other, field_deps other = field_deps cls' →
       _check_for_dependency_loops other = _check_for_dependency_loops cls')
  ∧ (dict_get (cls_dict cls') "__clean" = None →
     ∀ data ctx, clean cls' data ctx = Some (Raise (AttributeError "__clean"))).
Proof.
  intros Hdef Hcycle. split_and!.
  - unfold schema. rewrite Hdef. by rewrite (check_circular cls' Hcycle).
  - intros other Hdeps. unfold _check_for_dependency_loops. by rewrite Hdeps.
  - intros Hnone data ctx. unfold clean. by rewrite Hnone.
Qed.

Lemma circular_schema_is_rejected_witness :
  define_fields Examples.FIELD_TYPE_MAP Examples.Circular true = Ok Examples.Circular
  ∧ circular Examples.Circular
  ∧ schema Examples.FIELD_TYPE_MAP Examples.Circular true
    = Some (Raise (ValueError "Field dependencies could not be resolved.")).
Proof.
  assert (circular Examples.Circular) as Hcycle.
  { exists "a". apply (tc_l _ "a" "b" "a").
    - eexists. split; [left|]. left.
    - apply tc_once. eexists. split; [right; left|]. left. }
  split_and!; [reflexivity|exact Hcycle|].
  exact (proj1 (circular_schema_is_rejected Examples.FIELD_TYPE_MAP Examples.Circular true
                  Examples.Circular eq_refl Hcycle)).
Defined.

(** One pass of the check adds to [seen] a pending field or nothing. *)
Lemma resolve_pass_names deps seen name :
  name ∈ (resolve_pass deps seen).2 → name ∈ seen ∨ name ∈ dict_keys deps.
Proof.
  destruct (resolve_pass_cases deps seen) as [[-> _]|(f_name & f_deps & Hin & _ & ->)]; simpl.
  - by left.
  - intros [->%elem_of_singleton|?]%elem_of_union; [right|by left].
    by eapply elem_dict_keys.
Qed.

Lemma resolve_pass_pending deps seen name :
  name ∈ dict_keys (resolve_pass deps seen).1 → name ∈ dict_keys deps.
Proof.
  destruct (resolve_pass_cases deps seen) as [[-> _]|(f_name & f_deps & Hin & _ & ->)]; simpl.
  - done.
  - intros ([n fd] & -> & Hin'%dict_pop_elem)%list_elem_of_fmap. by eapply elem_dict_keys.
Qed.

(** C10. When a field declares a dependency that the schema does not
    define, the definition of the schema fails with the same error as for a
    cycle. A pass of the check adds to the resolved names only a pending
    field, so a name that is not a field never becomes resolved. *)
Theorem dangling_dependency_is_rejected FIELD_TYPE_MAP cls autodef cls' :
  define_fields FIELD_TYPE_MAP cls autodef = Ok cls' →
  dangling cls' →
  schema FIELD_TYPE_MAP cls autodef
  = Some (Raise (ValueError "Field dependencies could not be resolved."))
  ∧ (∀ deps seen undefined,
       undefined ∉ seen → undefined ∉ dict_keys deps →
       (undefined ∉ (resolve_pass deps seen).2)
       ∧ (undefined ∉ dict_keys (resolve_pass deps seen).1)).
Proof.
  intros Hdef Hdangling. split.
  - unfold schema. rewrite Hdef. by rewrite (check_dangling cls' Hdangling).
  - intros deps seen undefined Hseen Hdeps. split.
    + intros [?|?]%resolve_pass_names; done.
    + intros ?%resolve_pass_pending. done.
Qed.

Lemma dangling_dependency_is_rejected_witness :
  define_fields Examples.FIELD_TYPE_MAP Examples.Dangling true = Ok Examples.Dangling
  ∧ dangling Examples.Dangling
  ∧ schema Examples.FIELD_TYPE_MAP Examples.Dangling true
    = Some (Raise (ValueError "Field dependencies could not be resolved.")).
Proof.
  assert (dangling Examples.Dangling) as Hdangling.
  { exists "a", "ghost". split.
    - eexists. split; [left|]. left.
    - intros [[=]|[[=]|[]%elem_of_nil]%elem_of_cons]%elem_of_cons. }
  split_and!; [reflexivity|exact Hdangling|].
  exact (proj1 (dangling_dependency_is_rejected Examples.FIELD_TYPE_MAP Examples.Dangling true
                  Examples.Dangling eq_refl Hdangling)).
Defined.

(** Setting an attribute that is not a field, under a name that is not a
    field's, leaves the fields as they are. *)
Lemma dict_of_items_keys {V} (items : list (string * V)) k :
  k ∈ dict_keys (dict_of_items items) ↔ k ∈ items.*1.
Proof.
  unfold dict_of_items.
  assert (∀ d, k ∈ dict_keys (foldl (λ d kv, dict_set d kv.1 kv.2) d items)
               ↔ k ∈ dict_keys d ∨ k ∈ items.*1) as H.
  { induction items as [|[k0 v0] items IH]; intros d; simpl.
    - rewrite elem_of_nil. tauto.
    - rewrite IH, dict_keys_set, elem_of_cons. tauto. }
  rewrite H. unfold dict_keys. simpl. rewrite elem_of_nil. tauto.
Qed.

Lemma omap_as_field_set (d : pydict attr) name a :
  as_field (name, a) = None →
  name ∉ (omap as_field d).*1 →
  omap as_field (dict_set d name a) = omap as_field d.
Proof.
  intros Ha Hname. induction d as [|[k0 a0] d IH]; simpl.
  - by rewrite Ha.
  - simpl in Hname. case_decide as Hk.
    + subst k0. simpl. rewrite Ha.
      destruct (as_field (name, a0)) as [[n f]|] eqn:E; [|done].
      destruct Hname. unfold as_field in E. simpl in E.
      destruct a0; try done. injection E as <- <-. left.
    + simpl. destruct (as_field (k0, a0)) as [[n f]|] eqn:E.
      * f_equal. apply IH. intros Hin. apply Hname. by right.
      * by apply IH.
Qed.

Lemma get_fields_setattr cls name a :
  match a with AField _ => False | _ => True end →
  name ∉ dict_keys (get_fields cls) →
  get_fields (setattr cls name a) = get_fields cls.
Proof.
  intros Ha Hname. unfold get_fields in *. rewrite dict_of_items_keys in Hname.
  unfold setattr. simpl. rewrite omap_as_field_set; [done| |done].
  unfold as_field. simpl. by destruct a.
Qed.

(** What the decorator returns: the class it checked, with the three
    attributes set. Unless one of the three names was the name of a field,
    the fields are those that were checked, and they pass the check. *)
Lemma schema_Ok FIELD_TYPE_MAP cls autodef sch :
  schema FIELD_TYPE_MAP cls autodef = Some (Ok sch) →
  ∃ cls',
    define_fields FIELD_TYPE_MAP cls autodef = Ok cls'
    ∧ _check_for_dependency_loops cls' = Some (Ok ())
    ∧ dict_get (cls_dict sch) "__clean" = Some AClean
    ∧ dict_get (cls_dict sch) "__serialize" = Some ASerialize
    ∧ (Forall (λ name, name ∉ dict_keys (get_fields cls'))
         ["__clean"; "__init__"; "__serialize"] →
       get_fields sch = get_fields cls'
       ∧ _check_for_dependency_loops sch = Some (Ok ())).
Proof.
  unfold schema. destruct (define_fields _ _ _) as [cls'|e]; [|done].
  destruct (_check_for_dependency_loops cls') as [[[]|e]|] eqn:Hcheck; try done.
  intros [= <-]. exists cls'. split_and!; [done|done| | |].
  - unfold setattr. simpl. rewrite !dict_get_set. by repeat case_decide.
  - unfold setattr. simpl. rewrite !dict_get_set. by repeat case_decide.
  - intros Hnames. rewrite !Forall_cons in Hnames. destruct Hnames as (H1 & H2 & H3 & _).
    assert (get_fields
              (setattr (setattr (setattr cls' "__clean" AClean) "__init__" AInit)
                 "__serialize" ASerialize)
            = get_fields cls') as Hfields.
    { rewrite get_fields_setattr; [|done|].
      - rewrite get_fields_setattr; [|done|].
        + by rewrite get_fields_setattr.
        + by rewrite get_fields_setattr.
      - rewrite get_fields_setattr; [|done|].
        + by rewrite get_fields_setattr.
        + by rewrite get_fields_setattr. }
    split; [done|].
    unfold _check_for_dependency_loops, field_deps in *. by rewrite Hfields.
Qed.

(** ** The nullability policy *)

(** C5. Under [Required] an absent key gives the omission error and an
    explicit [None] the other, different error; under [Optional] an absent
    key gives a [Value] of [omitted] and an explicit [None] a [Value] of
    [None]; in the four cases no function of the chain is invoked. The same
    through [schema] and [clean], for the classes of [TestNullability] and
    any validator of [int]. *)
Theorem nullability_before_the_chain (parents : list validator) (fld : path)
    (ctx : context) (results : pydict outcome) (int_validator : validator) :
  run_validators_logged Required parents fld VOmitted ctx results
  = (Failed (mkError "Value is required." fld), [])
  ∧ run_validators_logged Required parents fld VNone ctx results
    = (Failed (mkError "Value is required, and must not be None." fld), [])
  ∧ "Value is required." ≠ "Value is required, and must not be None."
  ∧ run_validators_logged Optional parents fld VOmitted ctx results
    = (Value VOmitted, [])
  ∧ run_validators_logged Optional parents fld VNone ctx results
    = (Value VNone, [])
  ∧ ∃ required optional,
      schema (Examples.int_only int_validator) Examples.RequiredInt true
      = Some (Ok required)
      ∧ schema (Examples.int_only int_validator) Examples.OptionalInt true
        = Some (Ok optional)
      ∧ clean required (DictData []) ctx
        = Some (Ok (Invalid (mkValidationError
                   [mkError "Value is required." ["myint"]])))
      ∧ clean required (DictData [("myint", VNone)]) ctx
        = Some (Ok (Invalid (mkValidationError
                   [mkError "Value is required, and must not be None." ["myint"]])))
      ∧ clean optional (DictData []) ctx
        = Some (Ok (Instance (mkInstance optional [("myint", VOmitted)])))
      ∧ clean optional (DictData [("myint", VNone)]) ctx
        = Some (Ok (Instance (mkInstance optional [("myint", VNone)]))).
Proof.
  split_and!; try done.
  eexists _, _. split_and!; reflexivity.
Qed.

(** ** The getter *)

(** C8, where the code fails it. For an object that is not a dictionary
    [getter] evaluates [getattr] and returns nothing: the raw value is [None]
    whatever the attribute holds. *)
Theorem getter_drops_the_attribute :
  getattr_or [("myint", VInt 100)] "myint" VOmitted = VInt 100
  ∧ getter (ObjData [("myint", VInt 100)]) "myint" VOmitted = VNone
  ∧ getter (DictData [("myint", VInt 100)]) "myint" VOmitted = VInt 100
  ∧ ∀ attrs field default, getter (ObjData attrs) field default = VNone.
Proof. done. Qed.

(** * Further properties of schema.py *)

(** ** What the dependency check accepts *)

Lemma dict_pop_keys {V} (d : pydict V) k k' :
  NoDup (dict_keys d) →
  k' ∈ dict_keys (dict_pop d k) ↔ k' ∈ dict_keys d ∧ k' ≠ k.
Proof.
  unfold dict_keys. induction d as [|[k0 v0] d IH]; simpl.
  - intros _. rewrite elem_of_nil. tauto.
  - rewrite NoDup_cons. intros [Hk0 Hd]. case_decide as Hk; subst.
    + rewrite elem_of_cons. split; [|tauto].
      intros Hin. split; [by right|]. by intros ->.
    + simpl. rewrite !elem_of_cons, IH by done. split; [|tauto].
      intros [->|[? ?]]; split; auto.
Qed.

Lemma dict_pop_NoDup {V} (d : pydict V) k :
  NoDup (dict_keys d) → NoDup (dict_keys (dict_pop d k)).
Proof.
  unfold dict_keys. induction d as [|[k0 v0] d IH]; simpl; [done|].
  rewrite NoDup_cons. intros [Hk0 Hd]. case_decide; [done|].
  simpl. apply NoDup_cons. split; [|auto].
  intros Hin. apply Hk0. by apply (dict_pop_keys d k k0 Hd) in Hin as [? _].
Qed.

(** A pending field that can be resolved leads, along dependencies not yet
    seen, to a pending field all of whose dependencies are seen. *)
Lemma grounded_pending_resolvable cls (deps : pydict (gset string)) (seen : gset string) name :
  (∀ n fd, (n, fd) ∈ deps → (n, fd) ∈ field_deps cls) →
  (∀ n, n ∈ dict_keys (get_fields cls) → n ∈ seen ∨ n ∈ dict_keys deps) →
  grounded (get_fields cls) name →
  name ∈ dict_keys deps →
  ∃ n fd, (n, fd) ∈ deps ∧ fd ⊆ seen.
Proof.
  intros Hsub Hcover. induction 1 as [name f Hin Hdeps IH]. intros Hname.
  destruct (decide (Forall (λ dep, dep ∈ seen) (depends_on f))) as [Hall|Hsome].
  - apply list_elem_of_fmap in Hname as ([n fd] & -> & Hpending). simpl in *.
    exists n, fd. split; [done|].
    apply Hsub, elem_field_deps in Hpending as (f' & Hin' & ->).
    rewrite (get_fields_unique _ _ _ _ Hin' Hin).
    intros dep Hdep%elem_of_list_to_set. rewrite Forall_forall in Hall. auto.
  - apply not_Forall_Exists in Hsome; [|apply _].
    apply Exists_exists in Hsome as (dep & Hdep & Hunseen).
    apply (IH dep Hdep).
    pose proof (Hdeps dep Hdep) as Hg. inversion Hg as [? g Hg_in _]; subst.
    destruct (Hcover dep) as [?|?]; [by eapply elem_dict_keys|done|done].
Qed.

Lemma check_loop_complete cls (passes : nat) (deps : pydict (gset string)) (seen : gset string) :
  (∀ name, name ∈ dict_keys (get_fields cls) → grounded (get_fields cls) name) →
  NoDup (dict_keys deps) →
  (∀ n fd, (n, fd) ∈ deps → (n, fd) ∈ field_deps cls) →
  (∀ n, n ∈ seen → n ∉ dict_keys deps) →
  (∀ n, n ∈ dict_keys (get_fields cls) → n ∈ seen ∨ n ∈ dict_keys deps) →
  (length deps ≤ passes)%nat →
  check_loop passes deps seen = Some (Ok ()).
Proof.
  intros Hgrounded. revert deps seen.
  induction passes as [|passes IH]; intros deps seen Hnodup Hsub Hfresh Hcover Hlen.
  - destruct deps; [done|simpl in Hlen; lia].
  - destruct deps as [|item deps]; [done|].
    cbn [check_loop].
    destruct (resolve_pass_cases (item :: deps) seen)
      as [[_ Hstuck]|(f_name & f_deps & Hin & Hres & ->)].
    + exfalso.
      assert (item.1 ∈ dict_keys (item :: deps)) as Hitem by left.
      destruct (grounded_pending_resolvable cls (item :: deps) seen item.1)
        as (n & fd & Hn & Hfd); [done|done| |done|by eapply Hstuck].
      apply Hgrounded. destruct item as [n fd].
      destruct (proj1 (elem_field_deps cls n fd)) as (f & Hf & _); [apply Hsub; left|].
      by eapply elem_dict_keys.
    + assert (f_name ∉ seen) as Hnew.
      { intros Hs. apply (Hfresh _ Hs). by eapply elem_dict_keys. }
      rewrite decide_False.
      2:{ rewrite size_union, size_singleton; [lia|].
          intros x ->%elem_of_singleton. done. }
      apply IH.
      * by apply dict_pop_NoDup.
      * intros n fd Hn%dict_pop_elem. auto.
      * intros n [->%elem_of_singleton|Hs]%elem_of_union Hn%dict_pop_keys; [|done|..].
        -- by destruct Hn.
        -- destruct Hn as [Hn _]. by apply (Hfresh n).
        -- done.
      * intros n Hn. destruct (decide (n = f_name)) as [->|Hne].
        { left. apply elem_of_union. left. by apply elem_of_singleton. }
        destruct (Hcover n Hn) as [?|?]; [left; apply elem_of_union; by right|right].
        by apply dict_pop_keys.
      * apply elem_dict_keys in Hin. apply dict_pop_length in Hin. simpl in *. lia.
Qed.

Lemma check_grounded_Ok cls :
  (∀ name, name ∈ dict_keys (get_fields cls) → grounded (get_fields cls) name) →
  _check_for_dependency_loops cls = Some (Ok ()).
Proof.
  intros Hgrounded. apply (check_loop_complete cls); [done| | | | |done].
  - rewrite field_deps_fmap. unfold dict_keys. rewrite <- list_fmap_compose.
    apply get_fields_NoDup.
  - done.
  - intros n []%not_elem_of_empty.
  - intros n Hn. right. rewrite field_deps_fmap. unfold dict_keys in *.
    by rewrite <- list_fmap_compose.
Qed.

Lemma tc_last_step {A} (R : relation A) x y : tc R x y → ∃ z, R z y.
Proof. induction 1 as [x y Hxy|x z y _ _ IH]; [by exists x|done]. Qed.

(** Without a cycle and without an undefined dependency every field can be
    resolved. *)
Lemma acyclic_grounded cls :
  ¬ circular cls → ¬ dangling cls →
  ∀ name, name ∈ dict_keys (get_fields cls) → grounded (get_fields cls) name.
Proof.
  intros Hacyclic Hdefined name Hname.
  assert (sn (depends cls) name) as Hsn.
  { apply tc_finite_sn.
    - intros a Ha. apply Hacyclic. by exists a.
    - exists (mjoin (depends_on <$> (get_fields cls).*2)).
      intros b (a & f & Hin & Hdep)%tc_last_step.
      apply list_elem_of_join. exists (depends_on f). split; [done|].
      apply list_elem_of_fmap. exists f. split; [done|].
      apply list_elem_of_fmap. by exists (a, f). }
  induction Hsn as [name _ IH].
  apply dict_keys_elem in Hname as [f Hf%dict_get_Some_elem].
  apply (grounded_field _ _ f); [done|]. intros dep Hdep.
  assert (depends cls name dep) as Hstep by (by exists f).
  apply IH; [done|].
  destruct (decide (dep ∈ dict_keys (get_fields cls))) as [|Hout]; [done|].
  destruct Hdefined. by exists name, dep.
Qed.

Lemma grounded_acyclic cls :
  (∀ name, name ∈ dict_keys (get_fields cls) → grounded (get_fields cls) name) →
  ¬ circular cls ∧ ¬ dangling cls.
Proof.
  intros Hgrounded.
  pose proof (check_grounded_Ok cls Hgrounded) as Hok. split.
  - intros Hc%check_circular. congruence.
  - intros Hd%check_dangling. congruence.
Qed.
(** ** Fields from annotations *)

(** The [Field] an attribute holds, when it holds one. *)
Lemma omap_as_field_sublist (d : pydict attr) :
  (omap as_field d).*1 `sublist_of` d.*1.
Proof.
  induction d as [|[k a] d IH]; simpl; [done|].
  unfold as_field at 1. simpl. destruct a; simpl;
    try (by apply sublist_cons); by apply sublist_skip.
Qed.

Lemma dict_get_omap_as_field (d : pydict attr) k :
  NoDup (dict_keys d) →
  dict_get (omap as_field d) k = dict_get d k ≫= λ a, snd <$> as_field (k, a).
Proof.
  unfold dict_keys. induction d as [|[k0 a0] d IH]; simpl; [done|].
  rewrite NoDup_cons. intros [Hk0 Hd].
  assert (k0 = k → dict_get (omap as_field d) k = None) as Hnone.
  { intros ->. apply dict_get_None. intros Hin. apply Hk0.
    eapply elem_of_sublist; [exact Hin|apply omap_as_field_sublist]. }
  unfold as_field at 1. simpl. destruct a0; simpl; case_decide; subst; simpl; auto.
Qed.

Lemma get_fields_omap cls :
  NoDup (dict_keys (cls_dict cls)) → get_fields cls = omap as_field (cls_dict cls).
Proof.
  intros Hnodup. apply dict_of_items_id. unfold dict_keys in *.
  eapply sublist_NoDup; [exact Hnodup|apply omap_as_field_sublist].
Qed.

Lemma dict_get_get_fields cls k :
  NoDup (dict_keys (cls_dict cls)) →
  dict_get (get_fields cls) k
  = dict_get (cls_dict cls) k ≫= λ a, snd <$> as_field (k, a).
Proof. intros H. rewrite get_fields_omap by done. by apply dict_get_omap_as_field. Qed.

Lemma setattr_NoDup cls name a :
  NoDup (dict_keys (cls_dict cls)) → NoDup (dict_keys (cls_dict (setattr cls name a))).
Proof. apply dict_set_NoDup. Qed.

Lemma dict_get_get_fields_setattr cls name a k :
  NoDup (dict_keys (cls_dict cls)) →
  dict_get (get_fields (setattr cls name a)) k
  = if decide (name = k) then snd <$> as_field (k, a) else dict_get (get_fields cls) k.
Proof.
  intros Hnodup. rewrite !dict_get_get_fields by (done || by apply setattr_NoDup).
  unfold setattr. simpl. rewrite dict_get_set. by case_decide.
Qed.

Lemma field_def_from_annotation_raises FIELD_TYPE_MAP ann e :
  _field_def_from_annotation FIELD_TYPE_MAP ann = Raise e →
  e = TypeError "Unrecognized type annotation.".
Proof.
  unfold _field_def_from_annotation.
  destruct (FIELD_TYPE_MAP ann); [done|].
  destruct ann as [| |union_of]; try by intros [= <-].
  destruct (_ && _); [|by intros [= <-]].
  destruct (List.find _ _) as [inner|]; [|by intros [= <-]].
  destruct (FIELD_TYPE_MAP inner); [done|by intros [= <-]].
Qed.

Lemma autodef_loop_Ok FIELD_TYPE_MAP existing annotations cls cls' :
  NoDup (dict_keys (cls_dict cls)) →
  NoDup (dict_keys annotations) →
  autodef_loop FIELD_TYPE_MAP existing annotations cls = Ok cls' →
  NoDup (dict_keys (cls_dict cls'))
  ∧ cls_annotations cls' = cls_annotations cls
  ∧ ∀ k,
      dict_get (get_fields cls') k
      = match dict_get annotations k with
        | Some ann =>
            if dict_mem existing k then dict_get (get_fields cls) k
            else match _field_def_from_annotation FIELD_TYPE_MAP ann with
                 | Ok f => Some f
                 | Raise _ => None
                 end
        | None => dict_get (get_fields cls) k
        end.
Proof.
  revert cls. unfold dict_keys.
  induction annotations as [|[field f_type] annotations IH]; intros cls Hcls Hanns; simpl.
  - by intros [= <-].
  - apply NoDup_cons in Hanns as [Hfield Hanns].
    destruct (dict_mem existing field) eqn:Emem.
    + intros (Hn & Ha & Hget)%IH; [|done|done]. split_and!; [done|done|].
      intros k. rewrite Hget. case_decide as Hk; [subst k|done].
      rewrite Emem. by rewrite (proj2 (dict_get_None annotations field) Hfield).
    + destruct (_field_def_from_annotation FIELD_TYPE_MAP f_type) as [f_def|e] eqn:Edef; [|done].
      intros (Hn & Ha & Hget)%IH; [|by apply setattr_NoDup|done].
      split_and!; [done|done|].
      intros k. rewrite Hget. rewrite dict_get_get_fields_setattr by done.
      case_decide as Hk; [subst k|done].
      rewrite (proj2 (dict_get_None annotations field) Hfield).
      by rewrite Emem, Edef.
Qed.

Lemma autodef_loop_Raise FIELD_TYPE_MAP existing annotations cls :
  (∃ e, autodef_loop FIELD_TYPE_MAP existing annotations cls = Raise e)
  ↔ ∃ field f_type e,
      (field, f_type) ∈ annotations ∧ dict_mem existing field = false
      ∧ _field_def_from_annotation FIELD_TYPE_MAP f_type = Raise e.
Proof.
  revert cls. induction annotations as [|[field f_type] annotations IH]; intros cls; simpl.
  - split; [by intros [e [=]]|]. by intros (? & ? & ? & ?%elem_of_nil & _).
  - destruct (dict_mem existing field) eqn:Emem.
    + rewrite IH. split.
      * intros (fld & t & e & Hin & ?). exists fld, t, e. split; [by right|done].
      * intros (fld & t & e & [[= -> ->]|Hin]%elem_of_cons & Hmem & He); [congruence|].
        by exists fld, t, e.
    + destruct (_field_def_from_annotation FIELD_TYPE_MAP f_type) as [f_def|e] eqn:Edef.
      * rewrite IH. split.
        -- intros (fld & t & e & Hin & ?). exists fld, t, e. split; [by right|done].
        -- intros (fld & t & e & [[= -> ->]|Hin]%elem_of_cons & Hmem & He); [congruence|].
           by exists fld, t, e.
      * split; [|by eauto]. intros _. exists field, f_type, e. split; [left|done].
Qed.

Lemma autodef_loop_raises FIELD_TYPE_MAP existing annotations cls e :
  autodef_loop FIELD_TYPE_MAP existing annotations cls = Raise e →
  e = TypeError "Unrecognized type annotation.".
Proof.
  revert cls. induction annotations as [|[field f_type] annotations IH]; intros cls; simpl; [done|].
  destruct (dict_mem existing field); [apply IH|].
  destruct (_field_def_from_annotation FIELD_TYPE_MAP f_type) as [f_def|e'] eqn:Edef; [apply IH|].
  intros [= <-]. by eapply field_def_from_annotation_raises.
Qed.

Lemma check_loop_result (passes : nat) (deps : pydict (gset string)) (seen : gset string) r :
  check_loop passes deps seen = Some r → r = Ok () ∨ r = Raise unresolved.
Proof.
  revert deps seen. induction passes as [|passes IH]; intros deps seen.
  - destruct deps; [|done]. intros [= <-]. by left.
  - destruct deps as [|item deps]; [intros [= <-]; by left|].
    cbn [check_loop]. destruct (resolve_pass (item :: deps) seen) as [deps' seen'].
    case_decide; [intros [= <-]; by right|apply IH].
Qed.

Lemma check_cases cls :
  (_check_for_dependency_loops cls = Some (Ok ()) ∧ ¬ circular cls ∧ ¬ dangling cls)
  ∨ (_check_for_dependency_loops cls = Some (Raise unresolved)
     ∧ ¬ (¬ circular cls ∧ ¬ dangling cls)).
Proof.
  destruct (check_total cls) as [r Hr].
  destruct (check_loop_result _ _ _ _ Hr) as [->| ->].
  - left. split; [done|]. by apply grounded_acyclic, check_Ok_grounded.
  - right. split; [done|]. intros [Hacyclic Hdefined].
    rewrite (check_grounded_Ok cls) in Hr; [done|]. by apply acyclic_grounded.
Qed.

(** X1. The dependency check passes exactly when no field reaches itself
    along declared dependencies and every declared dependency is a field of
    the class; otherwise it raises the one error, whatever the order of the
    fields. *)
Theorem check_passes_iff_acyclic_and_defined cls :
  (_check_for_dependency_loops cls = Some (Ok ())
   ↔ ¬ circular cls ∧ ¬ dangling cls)
  ∧ (_check_for_dependency_loops cls = Some (Ok ())
     ∨ _check_for_dependency_loops cls = Some (Raise unresolved)).
Proof.
  destruct (check_cases cls) as [(Hok & Hacyclic & Hdefined)|(Hraise & Hnot)].
  - split; [|by left]. by split.
  - split; [|by right]. split; [congruence|done].
Qed.

(** X2. With [autodef], a field that the class defines itself is kept as it
    is, annotated or not; every other annotated attribute becomes the field
    its annotation stands for; and the class has no other fields. *)
Theorem autodef_adds_annotated_fields FIELD_TYPE_MAP cls cls' :
  NoDup (dict_keys (cls_dict cls)) →
  NoDup (dict_keys (cls_annotations cls)) →
  define_fields FIELD_TYPE_MAP cls true = Ok cls' →
  (∀ name f, dict_get (get_fields cls) name = Some f →
     dict_get (get_fields cls') name = Some f)
  ∧ (∀ name ann,
       dict_get (cls_annotations cls) name = Some ann →
       dict_get (get_fields cls) name = None →
       ∃ f, _field_def_from_annotation FIELD_TYPE_MAP ann = Ok f
            ∧ dict_get (get_fields cls') name = Some f)
  ∧ (∀ name, name ∈ dict_keys (get_fields cls')
       ↔ name ∈ dict_keys (get_fields cls) ∨ name ∈ dict_keys (cls_annotations cls)).
Proof.
  intros Hcls Hanns Hdef. unfold define_fields in Hdef.
  pose proof (autodef_loop_Ok _ _ _ _ _ Hcls Hanns Hdef) as (_ & _ & Hget).
  assert (∀ name, dict_mem (get_fields cls) name
                  = bool_decide (is_Some (dict_get (get_fields cls) name))) as Hmem by done.
  assert (∀ name ann,
     dict_get (cls_annotations cls) name = Some ann →
     dict_get (get_fields cls) name = None →
     ∃ f, _field_def_from_annotation FIELD_TYPE_MAP ann = Ok f
          ∧ dict_get (get_fields cls') name = Some f) as Hnew.
  { intros name ann Hann Hnone. rewrite Hget, Hann, Hmem, Hnone.
    rewrite bool_decide_eq_false_2 by (by intros []).
    destruct (_field_def_from_annotation FIELD_TYPE_MAP ann) as [f|e] eqn:Edef; [by exists f|].
    assert (∃ e, autodef_loop FIELD_TYPE_MAP (get_fields cls) (cls_annotations cls) cls
                 = Raise e) as [e' He']; [|congruence].
    apply autodef_loop_Raise. exists name, ann, e. split_and!; [|  |done].
    - by apply dict_get_Some_elem.
    - rewrite Hmem, Hnone. apply bool_decide_eq_false_2. by intros []. }
  split_and!; [|done|].
  - intros name f Hf. rewrite Hget, Hmem, Hf.
    rewrite bool_decide_eq_true_2 by eauto. by destruct (dict_get (cls_annotations cls) name).
  - intros name. split.
    + intros [f Hf]%dict_keys_elem.
      destruct (dict_get (get_fields cls) name) as [g|] eqn:Eg.
      { left. by eapply elem_dict_keys, dict_get_Some_elem. }
      rewrite Hget, Eg in Hf.
      destruct (dict_get (cls_annotations cls) name) as [ann|] eqn:Ea; [|done].
      right. by eapply elem_dict_keys, dict_get_Some_elem.
    + intros [[f Hf]%dict_keys_elem|[ann Ha]%dict_keys_elem].
      * eapply elem_dict_keys, dict_get_Some_elem.
        rewrite Hget, Hmem, Hf. rewrite bool_decide_eq_true_2 by eauto.
        by destruct (dict_get (cls_annotations cls) name).
      * destruct (dict_get (get_fields cls) name) as [g|] eqn:Eg.
        -- eapply elem_dict_keys, dict_get_Some_elem.
           rewrite Hget, Hmem, Eg, Ha. by rewrite bool_decide_eq_true_2 by eauto.
        -- destruct (Hnew name ann Ha Eg) as (f & _ & Hf).
           by eapply elem_dict_keys, dict_get_Some_elem.
Qed.

Lemma autodef_adds_annotated_fields_witness :
  NoDup (dict_keys (cls_dict Examples.OptionalInt))
  ∧ NoDup (dict_keys (cls_annotations Examples.OptionalInt))
  ∧ ∃ cls',
      define_fields Examples.FIELD_TYPE_MAP Examples.OptionalInt true = Ok cls'
      ∧ ∀ name, name ∈ dict_keys (get_fields cls')
          ↔ name ∈ dict_keys (get_fields Examples.OptionalInt)
            ∨ name ∈ dict_keys (cls_annotations Examples.OptionalInt).
Proof.
  assert (NoDup (dict_keys (cls_dict Examples.OptionalInt))) as H1 by apply NoDup_nil_2.
  assert (NoDup (dict_keys (cls_annotations Examples.OptionalInt))) as H2
    by apply NoDup_singleton.
  split_and!; [exact H1|exact H2|].
  eexists. split; [reflexivity|].
  apply (autodef_adds_annotated_fields Examples.FIELD_TYPE_MAP Examples.OptionalInt
           _ H1 H2 eq_refl).
Defined.

(** X3. Defining the fields raises exactly when an annotated attribute that
    is not a field already has an annotation that is not recognized, and then
    it raises the [TypeError]; an unrecognized annotation on a field of the
    class is not looked at, and without [autodef] nothing is. *)
Theorem autodef_raises_iff_unrecognized FIELD_TYPE_MAP cls :
  ((∃ e, define_fields FIELD_TYPE_MAP cls true = Raise e)
   ↔ ∃ name ann e,
       (name, ann) ∈ cls_annotations cls
       ∧ dict_get (get_fields cls) name = None
       ∧ _field_def_from_annotation FIELD_TYPE_MAP ann = Raise e)
  ∧ (∀ autodef e,
       define_fields FIELD_TYPE_MAP cls autodef = Raise e →
       autodef = true ∧ e = TypeError "Unrecognized type annotation.").
Proof.
  split.
  - unfold define_fields. rewrite autodef_loop_Raise.
    assert (∀ name, dict_mem (get_fields cls) name = false
                    ↔ dict_get (get_fields cls) name = None) as Hmem.
    { intros name. unfold dict_mem. rewrite bool_decide_eq_false. split.
      - intros Hn. destruct (dict_get _ name); [destruct Hn; eauto|done].
      - intros -> []. done. }
    split; intros (name & ann & e & Hin & Hnone & He); exists name, ann, e;
      (split_and!; [done|by apply Hmem|done]).
  - intros [] e; unfold define_fields; [|done].
    intros He. split; [done|]. by eapply autodef_loop_raises.
Qed.

(** ** What the decorator returns *)

Lemma dict_set_same {V} (d : pydict V) k v : dict_get d k = Some v → dict_set d k v = d.
Proof.
  induction d as [|[k0 v0] d IH]; simpl; [done|].
  case_decide; [by intros [= ->]; subst|]. intros H'. by rewrite IH.
Qed.

Lemma setattr_same cls name a :
  dict_get (cls_dict cls) name = Some a → setattr cls name a = cls.
Proof. intros H. unfold setattr. rewrite dict_set_same by done. by destruct cls. Qed.

Lemma autodef_loop_skip FIELD_TYPE_MAP existing annotations cls :
  (∀ name, name ∈ dict_keys annotations → dict_mem existing name = true) →
  autodef_loop FIELD_TYPE_MAP existing annotations cls = Ok cls.
Proof.
  induction annotations as [|[field f_type] annotations IH]; intros Hall; simpl; [done|].
  rewrite (Hall field) by left. apply IH. intros name Hname. apply Hall. by right.
Qed.

(** X4. The decorator has three outcomes: the [TypeError] of an annotation
    that is not recognized; the [ValueError] of the check, when the fields
    have a cycle or an undefined dependency; or the class, with [__clean],
    [__init__] and [__serialize] set and every other attribute and the
    annotations as they were. *)
Theorem schema_returns_or_raises FIELD_TYPE_MAP cls autodef :
  match define_fields FIELD_TYPE_MAP cls autodef with
  | Raise _ =>
      schema FIELD_TYPE_MAP cls autodef
      = Some (Raise (TypeError "Unrecognized type annotation."))
  | Ok cls' =>
      (¬ (¬ circular cls' ∧ ¬ dangling cls')
       ∧ schema FIELD_TYPE_MAP cls autodef
         = Some (Raise (ValueError "Field dependencies could not be resolved.")))
      ∨ (¬ circular cls' ∧ ¬ dangling cls'
         ∧ ∃ sch,
             schema FIELD_TYPE_MAP cls autodef = Some (Ok sch)
             ∧ cls_annotations sch = cls_annotations cls'
             ∧ dict_get (cls_dict sch) "__clean" = Some AClean
             ∧ dict_get (cls_dict sch) "__init__" = Some AInit
             ∧ dict_get (cls_dict sch) "__serialize" = Some ASerialize
             ∧ ∀ name, name ∉ ["__clean"; "__init__"; "__serialize"] →
                 dict_get (cls_dict sch) name = dict_get (cls_dict cls') name)
  end.
Proof.
  unfold schema. destruct (define_fields FIELD_TYPE_MAP cls autodef) as [cls'|e] eqn:Edef.
  - destruct (check_cases cls') as [(Hok & Hacyclic & Hdefined)|(Hraise & Hnot)].
    + right. rewrite Hok. split_and!; [done|done|]. eexists. split; [done|].
      unfold setattr. simpl. rewrite !dict_get_set.
      split_and!; [done|by repeat case_decide..|].
      intros name Hname. rewrite !dict_get_set.
      repeat (case_decide; [subst name; destruct Hname; set_solver|]). done.
    + left. by rewrite Hraise.
  - destruct autodef; [|done]. unfold define_fields in Edef.
    by rewrite (autodef_loop_raises _ _ _ _ _ Edef).
Qed.

Lemma schema_inv FIELD_TYPE_MAP cls autodef sch :
  schema FIELD_TYPE_MAP cls autodef = Some (Ok sch) →
  ∃ cls',
    define_fields FIELD_TYPE_MAP cls autodef = Ok cls'
    ∧ _check_for_dependency_loops cls' = Some (Ok ())
    ∧ sch = setattr (setattr (setattr cls' "__clean" AClean) "__init__" AInit)
              "__serialize" ASerialize.
Proof.
  unfold schema. destruct (define_fields _ _ _) as [cls'|e]; [|done].
  destruct (_check_for_dependency_loops cls') as [[[]|e]|] eqn:Hcheck; try done.
  intros [= <-]. by exists cls'.
Qed.

(** X5. Decorating a decorated class again returns it unchanged, when the
    three names the decorator sets are neither fields nor annotated. *)
Theorem schema_idempotent FIELD_TYPE_MAP cls autodef sch :
  NoDup (dict_keys (cls_dict cls)) →
  NoDup (dict_keys (cls_annotations cls)) →
  Forall (λ name, (name ∉ dict_keys (get_fields cls))
                  ∧ (name ∉ dict_keys (cls_annotations cls)))
    ["__clean"; "__init__"; "__serialize"] →
  schema FIELD_TYPE_MAP cls autodef = Some (Ok sch) →
  schema FIELD_TYPE_MAP sch autodef = Some (Ok sch).
Proof.
  intros Hcls Hanns Hreserved (cls' & Hdef & Hcheck & Hsch)%schema_inv.
  assert (cls_annotations cls' = cls_annotations cls
          ∧ ∀ name, name ∈ dict_keys (get_fields cls')
              ↔ name ∈ dict_keys (get_fields cls)
                ∨ (autodef = true ∧ name ∈ dict_keys (cls_annotations cls)))
    as [Hann Hkeys].
  { destruct autodef; unfold define_fields in Hdef.
    - pose proof (autodef_loop_Ok _ _ _ _ _ Hcls Hanns Hdef) as (_ & Ha & Hget).
      split; [done|]. intros name.
      split.
      + intros [f Hf]%dict_keys_elem. rewrite Hget in Hf.
        destruct (dict_get (cls_annotations cls) name) as [ann|] eqn:Ea.
        * right. split; [done|]. by eapply elem_dict_keys, dict_get_Some_elem.
        * left. by eapply elem_dict_keys, dict_get_Some_elem.
      + intros Hname.
        assert (is_Some (dict_get (get_fields cls') name)) as [f Hf];
          [|by eapply elem_dict_keys, dict_get_Some_elem].
        rewrite Hget.
        destruct (dict_mem (get_fields cls) name) eqn:Em.
        * apply dict_mem_keys, dict_keys_elem in Em as [f ->].
          destruct (dict_get (cls_annotations cls) name); eauto.
        * destruct Hname as [Hf%dict_mem_keys|[_ [ann Hann0]%dict_keys_elem]]; [congruence|].
          rewrite Hann0.
          destruct (_field_def_from_annotation FIELD_TYPE_MAP ann) as [f|e] eqn:Edef; [eauto|].
          assert (∃ e, autodef_loop FIELD_TYPE_MAP (get_fields cls) (cls_annotations cls) cls
                       = Raise e) as [e' He']; [|congruence].
          apply autodef_loop_Raise. exists name, ann, e.
          split; [by apply dict_get_Some_elem|done].
    - injection Hdef as <-. split; [done|]. intros name. split; [by left|].
      by intros [?|[? _]]. }
  assert (Forall (λ name, name ∉ dict_keys (get_fields cls'))
            ["__clean"; "__init__"; "__serialize"]) as Hreserved'.
  { eapply Forall_impl; [exact Hreserved|]. simpl. intros name [Hf Ha] Hin.
    apply Hkeys in Hin as [?|[_ ?]]; done. }
  rewrite !Forall_cons in Hreserved'. destruct Hreserved' as (H1 & H2 & H3 & _).
  assert (get_fields sch = get_fields cls') as Hfields.
  { subst sch. rewrite get_fields_setattr; [|done|].
    - rewrite get_fields_setattr; [|done|].
      + by rewrite get_fields_setattr.
      + by rewrite get_fields_setattr.
    - rewrite get_fields_setattr; [|done|].
      + by rewrite get_fields_setattr.
      + by rewrite get_fields_setattr. }
  assert (cls_annotations sch = cls_annotations cls) as Hann' by (by subst sch).
  assert (define_fields FIELD_TYPE_MAP sch autodef = Ok sch) as Hdef'.
  { destruct autodef; [|done]. unfold define_fields. apply autodef_loop_skip.
    intros name Hname. apply dict_mem_keys. rewrite Hfields. apply Hkeys. right.
    split; [done|]. by rewrite <- Hann'. }
  unfold schema. rewrite Hdef'.
  unfold _check_for_dependency_loops, field_deps in *. rewrite Hfields, Hcheck.
  do 2 f_equal.
  assert (dict_get (cls_dict sch) "__clean" = Some AClean
          ∧ dict_get (cls_dict sch) "__init__" = Some AInit
          ∧ dict_get (cls_dict sch) "__serialize" = Some ASerialize) as (Hc & Hi & Hs).
  { subst sch. unfold setattr. simpl. rewrite !dict_get_set. by repeat case_decide. }
  by rewrite (setattr_same _ _ _ Hc), (setattr_same _ _ _ Hi), (setattr_same _ _ _ Hs).
Qed.

Lemma schema_idempotent_witness :
  let sch := Examples.decorated Examples.OptionalInt in
  NoDup (dict_keys (cls_dict Examples.OptionalInt))
  ∧ NoDup (dict_keys (cls_annotations Examples.OptionalInt))
  ∧ Forall (λ name, (name ∉ dict_keys (get_fields Examples.OptionalInt))
                    ∧ (name ∉ dict_keys (cls_annotations Examples.OptionalInt)))
      ["__clean"; "__init__"; "__serialize"]
  ∧ schema Examples.FIELD_TYPE_MAP Examples.OptionalInt true = Some (Ok sch)
  ∧ schema Examples.FIELD_TYPE_MAP sch true = Some (Ok sch).
Proof.
  assert (NoDup (dict_keys (cls_dict Examples.OptionalInt))) as H1 by apply NoDup_nil_2.
  assert (NoDup (dict_keys (cls_annotations Examples.OptionalInt))) as H2
    by apply NoDup_singleton.
  assert (Forall (λ name, (name ∉ dict_keys (get_fields Examples.OptionalInt))
                          ∧ (name ∉ dict_keys (cls_annotations Examples.OptionalInt)))
            ["__clean"; "__init__"; "__serialize"]) as H3.
  { repeat constructor; try apply not_elem_of_nil;
      by intros [=]%list_elem_of_singleton. }
  split_and!; [exact H1|exact H2|exact H3|reflexivity|].
  exact (schema_idempotent Examples.FIELD_TYPE_MAP Examples.OptionalInt true
           (Examples.decorated Examples.OptionalInt) H1 H2 H3 eq_refl).
Defined.

(** ** More on the evaluation loop *)

Lemma rescan_nil results eval_queue : rescan [] results eval_queue = eval_queue.
Proof. done. Qed.

Lemma filter_all {A} (P : A → Prop) `{!∀ x, Decision (P x)} (l : list A) :
  Forall P l → filter P l = l.
Proof.
  induction 1 as [|x l Hx _ IH]; [done|]. rewrite filter_cons, decide_True by done.
  by rewrite IH.
Qed.

Lemma filter_none {A} (P : A → Prop) `{!∀ x, Decision (P x)} (l : list A) :
  Forall (λ x, ¬ P x) l → filter P l = [].
Proof.
  induction 1 as [|x l Hx _ IH]; [done|]. by rewrite filter_cons, decide_False.
Qed.

(** Without delayed fields the queue is worked off from its end. *)
Lemma eval_loop_lifo (rounds : nat) data ctx eval_queue results :
  NoDup (dict_keys results ++ dict_keys eval_queue) →
  (length eval_queue ≤ rounds)%nat →
  ∃ results',
    eval_loop rounds data ctx [] eval_queue results = Some (Ok results')
    ∧ dict_keys results' = dict_keys results ++ reverse (dict_keys eval_queue).
Proof.
  revert eval_queue results.
  induction rounds as [|rounds IH]; intros eval_queue results Hnodup Hlen.
  - destruct eval_queue; [|simpl in Hlen; lia]. exists results.
    split; [done|]. unfold dict_keys. simpl. by rewrite app_nil_r.
  - destruct eval_queue as [|item eval_queue _] using rev_ind.
    + exists results. split; [done|]. unfold dict_keys. simpl. by rewrite app_nil_r.
    + destruct item as [name f]. cbn [eval_loop]. rewrite list_pop_snoc.
      destruct (read_value_Some data name f) as [value ->].
      rewrite rescan_nil. unfold dict_keys in *.
      rewrite fmap_app in Hnodup. simpl in Hnodup.
      assert (dict_get results name = None) as Hfresh.
      { apply dict_get_None. intros Hin.
        apply NoDup_app in Hnodup as (_ & Hdisj & _). apply (Hdisj _ Hin).
        apply elem_of_app. right. left. }
      rewrite dict_set_fresh by done.
      rewrite length_app in Hlen. simpl in Hlen.
      edestruct (IH eval_queue) as (results' & Hloop & Hkeys); [| |exists results'; split; [exact Hloop|]].
      * unfold dict_keys. rewrite fmap_app. simpl.
        rewrite <- app_assoc. eapply NoDup_Permutation_proper; [|exact Hnodup].
        apply Permutation_app_head. apply Permutation_cons_append.
      * lia.
      * rewrite Hkeys. unfold dict_keys. rewrite !fmap_app. simpl.
        rewrite reverse_app. simpl. by rewrite <- app_assoc.
Qed.

(** X6. When no field declares a dependency, the fields are evaluated from
    the last declared to the first: the outcomes are recorded, and the errors
    of a [ValidationError] listed, in the reverse of the declaration order. *)
Theorem independent_fields_run_in_reverse cls data ctx :
  Forall (λ item, depends_on item.2 = []) (get_fields cls) →
  ∃ results,
    evaluate cls data ctx = Some (Ok results)
    ∧ dict_keys results = reverse (dict_keys (get_fields cls)).
Proof.
  intros Hnodeps. unfold evaluate.
  rewrite decide_True
    by apply (filter_split_length (λ item : string * Field, depends_on item.2 = [])).
  rewrite (filter_all (λ item : string * Field, depends_on item.2 = []) _ Hnodeps).
  rewrite (filter_none (λ item : string * Field, depends_on item.2 ≠ []))
    by (eapply Forall_impl; [exact Hnodeps|]; by intros ? ? ?).
  apply (eval_loop_lifo _ data ctx (get_fields cls) []); [|done].
  apply get_fields_NoDup.
Qed.

Lemma independent_fields_run_in_reverse_witness :
  let sch := Examples.decorated Examples.ExampleSchema in
  Forall (λ item, depends_on item.2 = []) (get_fields sch)
  ∧ ∃ results,
      evaluate sch (DictData []) None = Some (Ok results)
      ∧ dict_keys results = reverse (dict_keys (get_fields sch)).
Proof.
  assert (Forall (λ item : string * Field, depends_on item.2 = [])
            (get_fields (Examples.decorated Examples.ExampleSchema))) as H
    by repeat constructor.
  split; [exact H|].
  exact (independent_fields_run_in_reverse
           (Examples.decorated Examples.ExampleSchema) (DictData []) None H).
Defined.

(** Two inputs that read alike for every field at hand go through the
    loop alike. *)
Lemma eval_loop_agree x y (rounds : nat) ctx delayed_eval eval_queue results :
  (∀ name f, (name, f) ∈ eval_queue ++ delayed_eval →
     read_value x (accepted name f) None = read_value y (accepted name f) None) →
  eval_loop rounds x ctx delayed_eval eval_queue results
  = eval_loop rounds y ctx delayed_eval eval_queue results.
Proof.
  revert eval_queue results.
  induction rounds as [|rounds IH]; intros eval_queue results Hread; simpl; [done|].
  destruct (list_pop eval_queue) as [[queue [name f]]|] eqn:Epop; [|done].
  apply list_pop_Some in Epop as ->.
  rewrite (Hread name f) by (apply elem_of_app; left; apply elem_of_app; right; left).
  destruct (read_value y _ _) as [value|]; [|done].
  apply IH. intros n g Hin. apply Hread.
  rewrite rescan_filter in Hin.
  apply elem_of_app in Hin as [[Hin|Hin%list_elem_of_filter]%elem_of_app|Hin].
  - apply elem_of_app. left. apply elem_of_app. by left.
  - apply elem_of_app. right. by destruct Hin.
  - apply elem_of_app. by right.
Qed.

Lemma evaluate_agree cls x y ctx :
  (∀ name f, (name, f) ∈ get_fields cls →
     read_value x (accepted name f) None = read_value y (accepted name f) None) →
  evaluate cls x ctx = evaluate cls y ctx.
Proof.
  intros Hread. unfold evaluate. case_decide; [|done].
  apply eval_loop_agree. intros name f [Hin|Hin]%elem_of_app;
    apply list_elem_of_filter in Hin as [_ Hin]; auto.
Qed.

Lemma read_value_agree d1 d2 keys value :
  (∀ key, key ∈ keys → dict_get d1 key = dict_get d2 key) →
  read_value (DictData d1) keys value = read_value (DictData d2) keys value.
Proof.
  revert value. induction keys as [|key keys IH]; intros value Hkeys; simpl; [done|].
  rewrite (Hkeys key) by left. rewrite IH; [done|]. intros k Hk. apply Hkeys. by right.
Qed.

(** X7. [clean] reads the input under the accepted keys of the fields only:
    two dictionaries that agree on those keys give the same result, whatever
    else they hold. *)
Theorem clean_ignores_unaccepted_keys sch d1 d2 ctx :
  (∀ name f key, (name, f) ∈ get_fields sch → key ∈ accepted name f →
     dict_get d1 key = dict_get d2 key) →
  clean sch (DictData d1) ctx = clean sch (DictData d2) ctx.
Proof.
  intros Hagree. unfold clean, _clean.
  rewrite (evaluate_agree sch (DictData d1) (DictData d2)); [done|].
  intros name f Hin. apply read_value_agree. eauto.
Qed.

Lemma clean_ignores_unaccepted_keys_witness :
  let sch := Examples.decorated Examples.ExampleSchema in
  let d1 := [("myint", VInt 100); ("mylowint", VInt 2)] in
  let d2 := [("unknown", VStr "x"); ("myint", VInt 100); ("mylowint", VInt 2)] in
  (∀ name f key, (name, f) ∈ get_fields sch → key ∈ accepted name f →
     dict_get d1 key = dict_get d2 key)
  ∧ clean sch (DictData d1) None = clean sch (DictData d2) None.
Proof.
  assert (∀ name f key,
            (name, f) ∈ get_fields (Examples.decorated Examples.ExampleSchema) →
            key ∈ accepted name f →
            dict_get [("myint", VInt 100); ("mylowint", VInt 2)] key
            = dict_get [("unknown", VStr "x"); ("myint", VInt 100); ("mylowint", VInt 2)] key)
    as H.
  { intros name f key Hin Hkey.
    assert (key ≠ "unknown") as Hne.
    { intros ->. vm_compute in Hin.
      repeat (apply elem_of_cons in Hin as [[= -> ->]|Hin];
              [vm_compute in Hkey;
               repeat (apply elem_of_cons in Hkey as [[=]|Hkey]);
               by apply elem_of_nil in Hkey|]).
      by apply elem_of_nil in Hin. }
    simpl. destruct (decide ("unknown" = key)) as [<-|_]; [by destruct Hne|done]. }
  split; [exact H|]. exact (clean_ignores_unaccepted_keys _ _ _ None H).
Defined.

Lemma read_value_object attrs name f :
  read_value (ObjData attrs) (accepted name f) None = Some VNone.
Proof. by destruct (accepted_cons name f) as (key & keys & ->). Qed.

(** X8. For an input that is not a dictionary every field is handed [None]
    as its raw value: the result of [clean] is the same for every such
    object, whatever attributes it has. *)
Theorem clean_of_object_ignores_attributes sch attrs attrs' ctx :
  (∀ name f, read_value (ObjData attrs) (accepted name f) None = Some VNone)
  ∧ clean sch (ObjData attrs) ctx = clean sch (ObjData attrs') ctx.
Proof.
  split; [apply read_value_object|]. unfold clean, _clean.
  rewrite (evaluate_agree sch (ObjData attrs) (ObjData attrs')); [done|].
  intros name f _. by rewrite !read_value_object.
Qed.

(** X9. A failure blocks everything after it: a field that reaches, along
    declared dependencies, a field without a [Value] is not evaluated. *)
Theorem failure_blocks_all_dependents cls data ctx :
  ∃ results,
    evaluate cls data ctx = Some (Ok results)
    ∧ ∀ name upstream,
        tc (depends cls) name upstream →
        (∀ v, dict_get results upstream ≠ Some (Value v)) →
        dict_get results name = None.
Proof.
  destruct (evaluate_spec cls data ctx) as (results & Hev & Htrace & _).
  pose proof (get_fields_NoDup cls) as Hfields.
  exists results. split; [done|].
  assert (∀ name dep, depends cls name dep →
            (∀ v, dict_get results dep ≠ Some (Value v)) →
            dict_get results name = None) as Hstep.
  { intros name dep (f & Hin & Hdep) Hnone.
    destruct (dict_get results name) as [o|] eqn:Ho; [|done]. exfalso.
    apply dict_get_Some_elem in Ho.
    pose proof (trace_dependencies _ _ _ Hfields _ _ _ _ Htrace Ho Hin) as Hdeps.
    rewrite Forall_forall in Hdeps.
    destruct (has_Value_inv _ _ (Hdeps dep Hdep)) as [v Hv]. by apply (Hnone v). }
  induction 1 as [name upstream Hdep|name dep upstream Hdep _ IH]; intros Hnone.
  - by eapply Hstep.
  - eapply Hstep; [exact Hdep|]. intros v. by rewrite (IH Hnone).
Qed.

(** ** The instance and its serialisation *)

Lemma dict_get_filter_key {V} (P : string → Prop) `{!∀ k, Decision (P k)}
    (d : list (string * V)) k :
  dict_get (filter (λ kv, P kv.1) d) k = if decide (P k) then dict_get d k else None.
Proof.
  induction d as [|[k0 v0] d IH]; [simpl; by case_decide|].
  rewrite filter_cons. simpl.
  destruct (decide (P k0)) as [Hk0|Hk0]; simpl; destruct (decide (k0 = k)) as [->|Hne].
  - destruct (decide (P k)); [done|contradiction].
  - done.
  - destruct (decide (P k)); [contradiction|done].
  - done.
Qed.

(** X10. [_new_init], called with keyword arguments none of which is named
    [self], sets those that name a field of the class and drops the others
    without raising; a keyword named [self] makes the call raise
    [TypeError]. *)
Theorem new_init_drops_unknown_arguments cls kwargs :
  NoDup (dict_keys kwargs) →
  ("self" ∈ dict_keys kwargs →
   _new_init cls kwargs
   = Raise (TypeError "_new_init() got multiple values for argument 'self'"))
  ∧ ("self" ∉ dict_keys kwargs →
     ∃ self,
       _new_init cls kwargs = Ok self
       ∧ inst_class self = cls
       ∧ dict_keys (inst_attrs self) ⊆ dict_keys (get_fields cls)
       ∧ ∀ name,
           dict_get (inst_attrs self) name
           = if dict_mem (get_fields cls) name then dict_get kwargs name else None).
Proof.
  intros Hnodup. unfold _new_init. split.
  - intros Hself%dict_mem_keys. by rewrite Hself.
  - intros Hself. destruct (dict_mem kwargs "self") eqn:Emem.
    { by apply dict_mem_keys in Emem. }
    eexists. split; [done|]. cbn [inst_class inst_attrs]. unfold pydict in *.
    assert (NoDup (dict_keys
              (filter (λ kv : string * pyval, dict_mem (get_fields cls) kv.1) kwargs)))
      as Hfiltered.
    { unfold dict_keys in *. eapply sublist_NoDup; [exact Hnodup|].
      apply fmap_sublist, sublist_filter. }
    rewrite (dict_of_items_id (filter _ kwargs)) by done.
    rewrite (dict_of_items_acc_id (filter _ kwargs) []) by done. rewrite app_nil_l.
    split_and!; [done| |].
    + intros name ([k v] & -> & [Hmem _]%list_elem_of_filter)%list_elem_of_fmap.
      simpl in *. by apply dict_mem_keys, Is_true_true.
    + intros name.
      pose proof (dict_get_filter_key (λ k, dict_mem (get_fields cls) k) kwargs name) as Hget.
      cbv beta in Hget. rewrite Hget.
      destruct (dict_mem (get_fields cls) name); by case_decide.
Qed.

Lemma new_init_drops_unknown_arguments_witness :
  let sch := Examples.decorated Examples.ExampleSchema in
  let kwargs := [("myint", VInt 1); ("unknown", VInt 2)] in
  NoDup (dict_keys kwargs)
  ∧ ("self" ∉ dict_keys kwargs)
  ∧ ∃ self,
      _new_init sch kwargs = Ok self
      ∧ dict_get (inst_attrs self) "unknown" = None
      ∧ dict_get (inst_attrs self) "myint" = Some (VInt 1).
Proof.
  assert (NoDup (dict_keys [("myint", VInt 1); ("unknown", VInt 2)])) as H.
  { apply NoDup_cons. split; [by intros [=]%list_elem_of_singleton|apply NoDup_singleton]. }
  assert ("self" ∉ dict_keys [("myint", VInt 1); ("unknown", VInt 2)]) as Hself.
  { intros [[=]|[[=]|[]%elem_of_nil]%elem_of_cons]%elem_of_cons. }
  split_and!; [exact H|exact Hself|].
  destruct (proj2 (new_init_drops_unknown_arguments
                     (Examples.decorated Examples.ExampleSchema)
                     [("myint", VInt 1); ("unknown", VInt 2)] H) Hself)
    as (self & Hinit & _ & _ & Hget).
  exists self. split; [exact Hinit|]. split; by rewrite Hget.
Defined.

Lemma dict_of_items_acc_get {V} (items : list (string * V)) (d : pydict V) k :
  dict_get (foldl (λ d kv, dict_set d kv.1 kv.2) d items) k
  = match dict_get (reverse items) k with
    | Some v => Some v
    | None => dict_get d k
    end.
Proof.
  revert d. induction items as [|[k0 v0] items IH]; intros d; simpl; [done|].
  rewrite IH, reverse_cons, dict_get_app. simpl. rewrite dict_get_set.
  destruct (dict_get (reverse items) k); [done|]. by case_decide.
Qed.

(** In a dictionary built from items the last item of a key gives its
    value. *)
Lemma dict_of_items_last {V} (pre post : list (string * V)) k v :
  k ∉ post.*1 → dict_get (dict_of_items (pre ++ (k, v) :: post)) k = Some v.
Proof.
  intros Hpost. unfold dict_of_items. rewrite dict_of_items_acc_get.
  rewrite reverse_app, reverse_cons, <- app_assoc, dict_get_app.
  rewrite (proj2 (dict_get_None (reverse post) k)).
  - simpl. by rewrite decide_True.
  - unfold dict_keys. rewrite fmap_reverse. by rewrite elem_of_reverse.
Qed.

(** X11. [_serialize] gives a field's transformed attribute under the
    field's output key, unless a field declared later has the same output
    key: then the later field's value is the one under that key. Every key
    of the result is the output key of a field. *)
Theorem serialize_emits_each_output_key self pre name f post :
  get_fields (inst_class self) = pre ++ (name, f) :: post →
  Forall (λ item, output_key item.1 item.2 ≠ output_key name f) post →
  dict_get (_serialize self) (output_key name f)
  = Some (serialize_func f (getattr self name))
  ∧ ∀ key, key ∈ dict_keys (_serialize self) →
      ∃ n g, (n, g) ∈ get_fields (inst_class self) ∧ key = output_key n g.
Proof.
  intros Hfields Hpost. unfold _serialize. split.
  - rewrite Hfields, fmap_app, fmap_cons. simpl. apply dict_of_items_last.
    rewrite <- list_fmap_compose. intros ([n g] & Hkey & Hin)%list_elem_of_fmap.
    rewrite Forall_forall in Hpost. by apply (Hpost _ Hin).
  - intros key Hkey. apply (proj1 (dict_of_items_keys _ key)) in Hkey.
    rewrite <- list_fmap_compose in Hkey.
    apply list_elem_of_fmap in Hkey as ([n g] & -> & Hin). by exists n, g.
Qed.

Lemma serialize_emits_each_output_key_witness :
  let sch := Examples.decorated SerializeExamples.Renamed in
  let self := mkInstance sch [("twice", VInt 21); ("myint", VInt 100)] in
  get_fields (inst_class self)
  = [] ++ ("myint", make_field [Examples.intfield] [] [] Required (Some "my_new_int") id)
       :: [("twice", make_field [Examples.intfield] [] [] Required None SerializeExamples.double)]
  ∧ dict_get (_serialize self) "my_new_int" = Some (VInt 100).
Proof.
  split; [reflexivity|].
  refine (proj1 (serialize_emits_each_output_key
                   (mkInstance (Examples.decorated SerializeExamples.Renamed)
                      [("twice", VInt 21); ("myint", VInt 100)])
                   [] "myint"
                   (make_field [Examples.intfield] [] [] Required (Some "my_new_int") id)
                   [("twice", make_field [Examples.intfield] [] [] Required None
                                SerializeExamples.double)]
                   eq_refl _)).
  repeat constructor. discriminate.
Defined.

(** The instance that [_clean] returns has an attribute for each field of
    a schema whose dependencies resolve. *)
Lemma clean_Instance_attrs cls data ctx self :
  _check_for_dependency_loops cls = Some (Ok ()) →
  _clean cls data ctx = Some (Ok (Instance self)) →
  inst_class self = cls
  ∧ ∀ name f, (name, f) ∈ get_fields cls →
      ∃ v, dict_get (inst_attrs self) name = Some v.
Proof.
  intros Hcheck. unfold _clean.
  destruct (evaluate_spec cls data ctx) as (results & Hev & Htrace & Hcomplete).
  rewrite Hev. intros [= Hagg].
  destruct (aggregate_Instance_inv cls _ ctx results self Htrace Hagg)
    as (Hall & kwargs & -> & Hk1 & Hk2).
  split; [done|].
  intros name f Hin. simpl.
  assert (has_Value results name = true) as [v Hv]%has_Value_inv.
  { eapply trace_grounded; [exact Hcomplete|exact Hall|].
    apply check_Ok_grounded; [done|]. by eapply elem_dict_keys. }
  pose proof (kwargs_get results kwargs name Hk1 Hk2) as Hget. rewrite Hv in Hget.
  destruct (dict_get kwargs name) as [v'|]; [eauto|done].
Qed.

(** X12. What [serialize] makes of the instance that [clean] returned, for
    a schema whose output keys differ from one another: one entry for each
    field, in the order of declaration, holding under the field's output key
    the output transform of the validated value. *)
Theorem serialize_of_cleaned_instance sch data ctx self :
  dict_get (cls_dict sch) "__clean" = Some AClean →
  dict_get (cls_dict sch) "__serialize" = Some ASerialize →
  _check_for_dependency_loops sch = Some (Ok ()) →
  NoDup ((λ item, output_key item.1 item.2) <$> get_fields sch) →
  clean sch data ctx = Some (Ok (Instance self)) →
  ∃ out,
    serialize self = Ok out
    ∧ dict_keys out = (λ item, output_key item.1 item.2) <$> get_fields sch
    ∧ ∀ name f, (name, f) ∈ get_fields sch →
        ∃ v, dict_get (inst_attrs self) name = Some v
             ∧ dict_get out (output_key name f) = Some (serialize_func f v).
Proof.
  intros Hclean Hser Hcheck Hkeys Hself.
  rewrite (clean_decorated _ _ _ Hclean) in Hself.
  destruct (clean_Instance_attrs sch data ctx self Hcheck Hself) as [Hcls Hattrs].
  exists (_serialize self). unfold serialize. rewrite Hcls, Hser.
  assert (_serialize self
          = (λ item, (output_key item.1 item.2, serialize_func item.2 (getattr self item.1)))
              <$> get_fields sch) as Hout.
  { unfold _serialize. rewrite Hcls. apply dict_of_items_id.
    unfold dict_keys. by rewrite <- list_fmap_compose. }
  split_and!; [done| |].
  - rewrite Hout. unfold dict_keys. by rewrite <- list_fmap_compose.
  - intros name f Hin. destruct (Hattrs name f Hin) as [v Hv]. exists v. split; [done|].
    rewrite Hout. apply elem_dict_get.
    + unfold dict_keys. by rewrite <- list_fmap_compose.
    + apply list_elem_of_fmap. exists (name, f). split; [|done]. simpl.
      unfold getattr. by rewrite Hv.
Qed.

Lemma serialize_of_cleaned_instance_witness :
  let sch := Examples.decorated SerializeExamples.Renamed in
  let data := DictData [("myint", VInt 100); ("twice", VInt 21)] in
  let self := mkInstance sch [("twice", VInt 21); ("myint", VInt 100)] in
  dict_get (cls_dict sch) "__clean" = Some AClean
  ∧ dict_get (cls_dict sch) "__serialize" = Some ASerialize
  ∧ _check_for_dependency_loops sch = Some (Ok ())
  ∧ NoDup ((λ item, output_key item.1 item.2) <$> get_fields sch)
  ∧ clean sch data None = Some (Ok (Instance self))
  ∧ ∃ out, serialize self = Ok out
           ∧ dict_keys out = ["my_new_int"; "twice"].
Proof.
  assert (NoDup ((λ item, output_key item.1 item.2)
                   <$> get_fields (Examples.decorated SerializeExamples.Renamed))) as Hkeys.
  { apply NoDup_cons. split; [by intros [=]%list_elem_of_singleton|apply NoDup_singleton]. }
  split_and!; [reflexivity|reflexivity|reflexivity|exact Hkeys|reflexivity|].
  destruct (serialize_of_cleaned_instance
              (Examples.decorated SerializeExamples.Renamed)
              (DictData [("myint", VInt 100); ("twice", VInt 21)]) None
              (mkInstance (Examples.decorated SerializeExamples.Renamed)
                 [("twice", VInt 21); ("myint", VInt 100)])
              eq_refl eq_refl eq_refl Hkeys eq_refl) as (out & Hout & Hk & _).
  exists out. split; [exact Hout|exact Hk].
Defined.

(** ** The omitted sentinel in the input *)

Lemma dict_get_filter_value {V} (Q : V → Prop) `{!∀ v, Decision (Q v)}
    (d : list (string * V)) k :
  NoDup (dict_keys d) →
  dict_get (filter (λ kv, Q kv.2) d) k
  = dict_get d k ≫= λ v, if decide (Q v) then Some v else None.
Proof.
  unfold dict_keys. induction d as [|[k0 v0] d IH]; [done|].
  rewrite fmap_cons, NoDup_cons. intros [Hk0 Hd]. rewrite filter_cons.
  cbn [dict_get snd mbind option_bind].
  destruct (decide (k0 = k)) as [->|Hne]; destruct (decide (Q v0)) as [HQ|HQ].
  - cbn [dict_get]. rewrite decide_True by done. simpl. by rewrite decide_True.
  - simpl. rewrite decide_False by done.
    apply dict_get_None. intros Hin. apply Hk0.
    eapply elem_of_sublist; [exact Hin|]. apply fmap_sublist, sublist_filter.
  - cbn [dict_get]. rewrite decide_False by done. by apply IH.
  - by apply IH.
Qed.

(** X13. An entry of the input dictionary whose value is the [omitted]
    sentinel counts as absent: the raw value of a field is the value of the
    first accepted key present once those entries are left out, so a later
    accepted key is read in its place. *)
Theorem omitted_value_counts_as_absent d name f :
  NoDup (dict_keys d) →
  read_value (DictData d) (accepted name f) None
  = Some (first_present (filter (λ kv, is_omitted kv.2 = false) d) (accepted name f)).
Proof.
  intros Hnodup. unfold pydict in *.
  assert (∀ key,
            dict_get (filter (λ kv : string * pyval, is_omitted kv.2 = false) d) key
            = dict_get d key ≫= λ v, if is_omitted v then None else Some v) as Hget.
  { intros key.
    pose proof (dict_get_filter_value (λ v : pyval, is_omitted v = false) d key Hnodup) as H.
    cbv beta in H. rewrite H.
    destruct (dict_get d key) as [v|]; [|done]. simpl. by destruct (is_omitted v). }
  destruct (accepted_cons name f) as (key & keys & ->).
  assert (∀ keys value,
            read_value (DictData d) keys (Some value)
            = Some (match keys with
                    | [] => value
                    | _ => first_present
                             (filter (λ kv : string * pyval, is_omitted kv.2 = false) d) keys
                    end)) as Hloop.
  { clear keys. induction keys as [|k keys IH]; intros value; [done|].
    cbn [read_value first_present getter]. rewrite Hget.
    destruct (dict_get d k) as [v|]; simpl.
    - destruct v; simpl; try done. rewrite IH. by destruct keys.
    - rewrite IH. by destruct keys. }
  cbn [read_value first_present getter]. rewrite Hget.
  destruct (dict_get d key) as [v|]; simpl.
  - destruct v; simpl; try done. rewrite Hloop. by destruct keys.
  - rewrite Hloop. by destruct keys.
Qed.

Lemma omitted_value_counts_as_absent_witness :
  let d := [("myint", VOmitted); ("deprecated_int", VInt 100)] in
  let myint := make_field [Examples.intfield] ["myint"; "deprecated_int"] [] Required None id in
  NoDup (dict_keys d)
  ∧ read_value (DictData d) (accepted "myint" myint) None = Some (VInt 100).
Proof.
  assert (NoDup (dict_keys [("myint", VOmitted); ("deprecated_int", VInt 100)])) as H.
  { apply NoDup_cons. split; [by intros [=]%list_elem_of_singleton|apply NoDup_singleton]. }
  split; [exact H|].
  exact (omitted_value_counts_as_absent
           [("myint", VOmitted); ("deprecated_int", VInt 100)] "myint"
           (make_field [Examples.intfield] ["myint"; "deprecated_int"] [] Required None id) H).
Defined.

(** ** Independent fields *)

(** The outcome of every field, when no field has a dependency and no
    executor looks at the outcomes recorded before. *)
Lemma independent_outcomes cls data ctx :
  Forall (λ item, depends_on item.2 = []) (get_fields cls) →
  (∀ name f, (name, f) ∈ get_fields cls →
     ∀ p v c r, run_validators f p v c r = run_validators f p v c []) →
  ∃ results,
    evaluate cls data ctx = Some (Ok results)
    ∧ ∀ name,
        dict_get results name
        = dict_get (get_fields cls) name ≫= λ f,
            (λ v, run_validators f [name] v ctx []) <$> read_value data (accepted name f) None.
Proof.
  intros Hnodeps Hind.
  destruct (evaluate_spec cls data ctx) as (results & Hev & Htrace & Hcomplete).
  pose proof (get_fields_NoDup cls) as Hfields.
  exists results. split; [done|]. intros name.
  destruct (dict_get (get_fields cls) name) as [f|] eqn:Ef; simpl.
  - apply dict_get_Some_elem in Ef.
    assert (name ∈ dict_keys results) as [o Ho]%dict_keys_elem.
    { apply (Hcomplete name f Ef). rewrite Forall_forall in Hnodeps.
      pose proof (Hnodeps (name, f) Ef) as Hnil. simpl in Hnil.
      rewrite Hnil. apply Forall_nil_2. }
    rewrite Ho. pose proof Ho as (pre & post & ->)%dict_get_Some_elem%list_elem_of_split.
    destruct (trace_entry _ _ _ _ _ _ _ Htrace) as (f' & value & Hin' & _ & _ & Hvalue & ->).
    assert (f' = f) as -> by (eapply get_fields_unique; eauto).
    rewrite Hvalue. simpl. by rewrite (Hind name f Ef).
  - apply dict_get_None. intros Hin. apply dict_get_None in Ef. apply Ef.
    apply trace_keys in Htrace as [_ Hsub]. by apply Hsub.
Qed.

(** X14. Independent fields commute: for two classes with the same fields
    in another order, none with a dependency and none with an executor that
    looks at the outcomes recorded before, the loop records the same outcome
    for every field. *)
Theorem independent_fields_commute cls1 cls2 data ctx :
  get_fields cls1 ≡ₚ get_fields cls2 →
  Forall (λ item, depends_on item.2 = []) (get_fields cls1) →
  (∀ name f, (name, f) ∈ get_fields cls1 →
     ∀ p v c r, run_validators f p v c r = run_validators f p v c []) →
  ∃ results1 results2,
    evaluate cls1 data ctx = Some (Ok results1)
    ∧ evaluate cls2 data ctx = Some (Ok results2)
    ∧ dict_eq results1 results2.
Proof.
  intros Hperm Hnodeps Hind.
  destruct (independent_outcomes cls1 data ctx Hnodeps Hind) as (results1 & Hev1 & Hget1).
  destruct (independent_outcomes cls2 data ctx) as (results2 & Hev2 & Hget2).
  { by rewrite <- Hperm. }
  { intros name f Hin. apply (Hind name f). by rewrite Hperm. }
  exists results1, results2. split_and!; [done|done|].
  intros name. rewrite Hget1, Hget2.
  assert (dict_get (get_fields cls1) name = dict_get (get_fields cls2) name) as ->; [|done].
  destruct (dict_get (get_fields cls1) name) as [f|] eqn:E1.
  - symmetry. apply elem_dict_get; [apply get_fields_NoDup|].
    rewrite <- Hperm. by apply dict_get_Some_elem.
  - symmetry. apply dict_get_None. intros Hin. apply dict_get_None in E1. apply E1.
    unfold dict_keys in *. by rewrite Hperm.
Qed.

Lemma independent_fields_commute_witness :
  let cls1 := Examples.ExampleSchema in
  let cls2 := mkClass (reverse (cls_dict Examples.ExampleSchema)) [] in
  let data := DictData [("myint", VInt 100); ("mylowint", VInt 10)] in
  get_fields cls1 ≡ₚ get_fields cls2
  ∧ Forall (λ item, depends_on item.2 = []) (get_fields cls1)
  ∧ ∃ results1 results2,
      evaluate cls1 data None = Some (Ok results1)
      ∧ evaluate cls2 data None = Some (Ok results2)
      ∧ dict_eq results1 results2.
Proof.
  assert (get_fields Examples.ExampleSchema
          ≡ₚ get_fields (mkClass (reverse (cls_dict Examples.ExampleSchema)) [])) as Hperm.
  { apply Permutation_swap. }
  assert (Forall (λ item : string * Field, depends_on item.2 = [])
            (get_fields Examples.ExampleSchema)) as Hnodeps by repeat constructor.
  split_and!; [exact Hperm|exact Hnodeps|].
  apply (independent_fields_commute Examples.ExampleSchema
           (mkClass (reverse (cls_dict Examples.ExampleSchema)) []) _ None Hperm Hnodeps).
  intros name f Hin p v c r.
  repeat (apply elem_of_cons in Hin as [[= -> ->]|Hin]; [by destruct v|]).
  by apply elem_of_nil in Hin.
Defined.
